(** * chord-analyzer: chord statistics and MIDI note synthesis

    A shallow embedding of the computational core of the repository:

    - [utils/midi_generator.py]: [CHORD_ROOT_MAP], [CHORD_TYPE_MAP],
      [parse_chord], [chords_list_to_segments], [chords_to_midi];
    - [utils/chord_analyzer.py]: [ChordAnalyzer.analyze_audio_file] (from the
      recogniser's output onwards, with its [float] conversions and its
      [except] clause), [_analyze_chord_statistics] and the data of the two
      plots;
    - [pages/advanced_analysis.py]: the valid-label filter, the diversity and
      change ratios of [render_chord_pattern_analysis], the major and minor
      lists and the longest streak of [render_musical_features];
    - [components/analysis_display.py]: the rows of [display_chord_timeline];
    - [app.py]: the filter and the MIDI button of [render_home_page].

    Conventions of the model.

    - A Python [str] is a [string]; labels are taken to be ASCII text, so
      [str.isspace] and [str.upper] are the ASCII ones.
    - A Python [dict] is an association list in insertion order, because
      [max] over [dict.items()] depends on that order.
    - Time stamps are only ever copied by the modelled functions, never
      computed with, so the type of time stamps is a parameter.
    - MIDI pitches and velocities are [Z], counters and lengths are [nat],
      the ratios of the analysis page are exact rationals [Q]. *)

From Stdlib Require Import List String Ascii Bool Arith ZArith QArith Lia.
From Stdlib Require Import Permutation.
Import ListNotations.

Close Scope Q_scope.
Open Scope string_scope.
Open Scope list_scope.
Open Scope nat_scope.

(** ** Python string primitives *)

Module PyStr.

(** [str.isspace] on an ASCII character: TAB, LF, VT, FF, CR, the four
    separators FS, GS, RS, US and the space. *)
Definition is_space (c : ascii) : bool :=
  let n := nat_of_ascii c in
  (((9 <=? n) && (n <=? 13)) || ((28 <=? n) && (n <=? 32)))%nat.

Fixpoint lstrip (s : string) : string :=
  match s with
  | EmptyString => EmptyString
  | String c r => if is_space c then lstrip r else s
  end.

Fixpoint rstrip (s : string) : string :=
  match s with
  | EmptyString => EmptyString
  | String c r =>
      match rstrip r with
      | EmptyString => if is_space c then EmptyString else String c EmptyString
      | r' => String c r'
      end
  end.

(** [s.strip()] *)
Definition strip (s : string) : string := rstrip (lstrip s).

Definition upper_char (c : ascii) : ascii :=
  let n := nat_of_ascii c in
  if ((97 <=? n) && (n <=? 122))%nat then ascii_of_nat (n - 32) else c.

(** [s.upper()] *)
Fixpoint upper (s : string) : string :=
  match s with
  | EmptyString => EmptyString
  | String c r => String (upper_char c) (upper r)
  end.

(** [c in s] for a one-character [c]. *)
Fixpoint contains (c : ascii) (s : string) : bool :=
  match s with
  | EmptyString => false
  | String d r => Ascii.eqb c d || contains c r
  end.

(** [s.split(c, 1)] when [c] occurs in [s]: the text before the first [c]
    and the text after it.  (Without an occurrence Python returns the
    one-element list [[s]]; the callers test [contains] first.) *)
Fixpoint split1 (c : ascii) (s : string) : string * string :=
  match s with
  | EmptyString => (EmptyString, EmptyString)
  | String d r =>
      if Ascii.eqb c d then (EmptyString, r)
      else let '(a, b) := split1 c r in (String d a, b)
  end.

(** Truthiness of a string: [bool(s)]. *)
Definition truthy (s : string) : bool :=
  match s with EmptyString => false | _ => true end.

End PyStr.

(** ** Python dictionaries as insertion-ordered association lists *)

Module PyDict.

Section Dict.
Context {V : Type}.

Definition dict := list (string * V).

(** [d.get(k)] *)
Fixpoint get (d : dict) (k : string) : option V :=
  match d with
  | [] => None
  | (k', v) :: d' => if String.eqb k k' then Some v else get d' k
  end.

(** [k in d] *)
Definition mem (d : dict) (k : string) : bool :=
  match get d k with Some _ => true | None => false end.

(** [d.get(k, default)] *)
Definition get_default (d : dict) (k : string) (default : V) : V :=
  match get d k with Some v => v | None => default end.

(** [d[k] = f(d[k])] for a key already present (position kept), and
    [d[k] = v0] for a new key (appended at the end). *)
Fixpoint upsert (f : V -> V) (v0 : V) (k : string) (d : dict) : dict :=
  match d with
  | [] => [(k, v0)]
  | (k', v) :: d' =>
      if String.eqb k k' then (k', f v) :: d'
      else (k', v) :: upsert f v0 k d'
  end.

Definition keys (d : dict) : list string := map fst d.
Definition values (d : dict) : list V := map snd d.
End Dict.

Arguments dict V : clear implicits.

End PyDict.

(** ** utils/midi_generator.py *)

Module MidiGenerator.
Import PyStr PyDict.

Definition CHORD_ROOT_MAP : dict Z :=
  [ ("C", 60); ("C#", 61); ("Db", 61); ("D", 62); ("D#", 63); ("Eb", 63);
    ("E", 64); ("F", 65); ("F#", 66); ("Gb", 66); ("G", 67); ("G#", 68);
    ("Ab", 68); ("A", 69); ("A#", 70); ("Bb", 70); ("B", 71) ]%Z.

Definition CHORD_TYPE_MAP : dict (list Z) :=
  [ ("", [0; 4; 7]);
    ("maj", [0; 4; 7]);
    ("min", [0; 3; 7]);
    ("m", [0; 3; 7]);
    ("dim", [0; 3; 6]);
    ("aug", [0; 4; 8]);
    ("7", [0; 4; 7; 10]);
    ("maj7", [0; 4; 7; 11]);
    ("m7", [0; 3; 7; 10]) ]%Z.

(** [parse_chord] on a chord name (the [else] branch of the tuple test; the
    synthesiser always passes the name). *)
Definition parse_chord (chord_str : string) : string * string :=
  let '(root, ctype) :=
    if contains ":" chord_str then split1 ":" chord_str
    else (chord_str, EmptyString) in
  (upper (strip root), strip ctype).

(** [CHORD_TYPE_MAP.get(ctype, CHORD_TYPE_MAP[''])] *)
Definition intervals_of (ctype : string) : list Z :=
  get_default CHORD_TYPE_MAP ctype
    (get_default CHORD_TYPE_MAP EmptyString []).

(** Lines 79-84 of [chords_to_midi]: the root note and the intervals a chord
    name resolves to, or [None] when the root is not a key of
    [CHORD_ROOT_MAP] (the segment is then skipped). *)
Definition resolve_chord (chord : string) : option (Z * list Z) :=
  let '(root, ctype) := parse_chord chord in
  match get CHORD_ROOT_MAP root with
  | None => None
  | Some root_note => Some (root_note, intervals_of ctype)
  end.

Section Synthesis.
Variable time : Type.

(** [pretty_midi.Note(velocity, pitch, start, end)] *)
Record Note : Type := mkNote {
  velocity : Z;
  pitch : Z;
  start : time;
  end_ : time
}.

(** A chord segment [(start, end, chord)]. *)
Definition segment : Type := (time * time * string)%type.

(** The body of the [for chord_segment in chord_segments] loop: the notes
    one segment appends to [notes]. *)
Definition segment_notes (chord_segment : segment) : list Note :=
  let '(start, end_, chord) := chord_segment in
  if negb (truthy chord) || String.eqb chord "N" then []
  else
    match resolve_chord chord with
    | None => []
    | Some (root_note, intervals) =>
        let chord_notes := map (fun i => (root_note + i)%Z) intervals in
        map (fun pitch => mkNote 80 pitch start end_) chord_notes
    end.

(** The list [notes] after the loop. *)
Definition collect_notes (chord_segments : list segment) : list Note :=
  fold_left (fun notes seg => notes ++ segment_notes seg) chord_segments [].

(** What [chords_to_midi] does after the loop: either it warns and returns
    [None], or it hands the notes, as the single instrument of a fresh
    [PrettyMIDI] object, to [pm.write]. *)
Inductive midi_result : Type :=
| InsufficientNotes
| MidiWritten (filename : option string) (notes : list Note).

Definition chords_to_midi (chord_segments : list segment)
    (filename : option string) (tempo : Z) : midi_result :=
  let notes := collect_notes chord_segments in
  if List.length notes <? 2 then InsufficientNotes
  else MidiWritten filename notes.

End Synthesis.

Arguments mkNote {time}.
Arguments velocity {time}.
Arguments pitch {time}.
Arguments start {time}.
Arguments end_ {time}.
Arguments segment_notes {time}.
Arguments collect_notes {time}.
Arguments InsufficientNotes {time}.
Arguments MidiWritten {time}.
Arguments chords_to_midi {time}.

End MidiGenerator.

(** ** utils/chord_analyzer.py *)

Module ChordAnalyzer.
Import PyStr PyDict.

(** The test [label_str and label_str != 'nan'] on an already stripped
    label. *)
Definition is_valid_label (label_str : string) : bool :=
  truthy label_str && negb (String.eqb label_str "nan").

(** [max(items, key=lambda x: x[1])] on a non-empty sequence that starts
    with [best]: Python keeps the first item and replaces it only by an item
    whose key is strictly greater. *)
Fixpoint max_by_count (best : string * nat) (items : list (string * nat))
    : string * nat :=
  match items with
  | [] => best
  | x :: rest =>
      if snd best <? snd x then max_by_count x rest
      else max_by_count best rest
  end.

(** The statistics dictionary [_analyze_chord_statistics] returns. *)
Record ChordStatistics : Type := mkStats {
  total_chords : nat;
  unique_chords : nat;
  most_common_chord : option string;
  most_common_count : nat;
  chord_distribution : dict nat
}.

Section Analysis.
Variable time : Type.

(** An element [(start, end, label)] of [chords]. *)
Definition chord : Type := (time * time * string)%type.

(** One iteration of the counting loop of [_analyze_chord_statistics]. *)
Definition count_label (chord_counts : dict nat) (c : chord) : dict nat :=
  let '(_, _, label) := c in
  let label_str := strip label in
  if is_valid_label label_str then upsert S 1 label_str chord_counts
  else chord_counts.

(** [chord_counts] after the loop. *)
Definition count_chords (chords : list chord) : dict nat :=
  fold_left count_label chords [].

(** [_analyze_chord_statistics]; [None] is the empty dictionary [{}]
    returned for an empty list. *)
Definition _analyze_chord_statistics (chords : list chord)
    : option ChordStatistics :=
  match chords with
  | [] => None
  | _ =>
      let chord_counts := count_chords chords in
      let most_common :=
        match chord_counts with
        | [] => (None, 0)
        | x :: rest =>
            let m := max_by_count x rest in (Some (fst m), snd m)
        end in
      Some {| total_chords := List.length chords;
              unique_chords := List.length chord_counts;
              most_common_chord := fst most_common;
              most_common_count := snd most_common;
              chord_distribution := chord_counts |}
  end.

(** An element [c] of the recogniser's output after [tolist()].  A 3-tuple
    is given by what the loop makes of its components: [float(c[0])] and
    [float(c[1])], each a time stamp or [None] when [float] raises, and
    [str(c[2])].  Anything that is not a 3-tuple is [RawOther], which the
    loop ignores. *)
Inductive raw_item : Type :=
| RawTriple (s e : option time) (label : string)
| RawOther.

(** What the user is shown when no result is returned: [st.warning] when no
    chord was detected, [st.error] from the [except] clause. *)
Inductive notice : Type :=
| NoChordsWarning
| AnalysisError.

(** The dictionary [analyze_audio_file] returns on success. *)
Record AnalysisResult : Type := mkResult {
  chords_of : list chord;
  statistics : option ChordStatistics;
  duration : time
}.

(** The normalising loop of [analyze_audio_file]: the list [chords], or
    [None] when a [float] conversion raises, which ends the loop at once. *)
Fixpoint normalize (chords_arr : list raw_item) : option (list chord) :=
  match chords_arr with
  | [] => Some []
  | RawTriple (Some s) (Some e) label :: rest =>
      match normalize rest with
      | Some chords => Some ((s, e, label) :: chords)
      | None => None
      end
  | RawTriple _ _ _ :: _ => None
  | RawOther :: rest => normalize rest
  end.

(** The value [analyze_audio_file] returns, from the recogniser's output
    [chords_arr] onwards.  An exception raised in the [try] block is caught
    and [None] is returned; an empty [chords] gives [None] after the
    warning.  On the success path [chords] is non-empty, so [chords[-1][1]]
    is the end of its last element. *)
Definition analyze_audio_file (chords_arr : list raw_item)
    : option AnalysisResult :=
  match normalize chords_arr with
  | None => None
  | Some [] => None
  | Some (c :: cs) =>
      let chords := c :: cs in
      Some {| chords_of := chords;
              statistics := _analyze_chord_statistics chords;
              duration := snd (fst (last chords c)) |}
  end.

(** The message [analyze_audio_file] shows, if any. *)
Definition analysis_notice (chords_arr : list raw_item) : option notice :=
  match normalize chords_arr with
  | None => Some AnalysisError
  | Some [] => Some NoChordsWarning
  | Some (_ :: _) => None
  end.

End Analysis.

Arguments count_label {time}.
Arguments count_chords {time}.
Arguments _analyze_chord_statistics {time}.
Arguments RawTriple {time}.
Arguments RawOther {time}.
Arguments mkResult {time}.
Arguments chords_of {time}.
Arguments statistics {time}.
Arguments duration {time}.
Arguments normalize {time}.
Arguments analyze_audio_file {time}.
Arguments analysis_notice {time}.

End ChordAnalyzer.

(** ** pages/advanced_analysis.py *)

Module AdvancedAnalysis.
Import PyStr PyDict ChordAnalyzer.

(** [valid_chords]: the stripped labels that are non-empty and not
    ["nan"], in sequence order. *)
Definition valid_chords {time : Type} (chords : list (chord time))
    : list string :=
  filter is_valid_label (map (fun c => strip (snd c)) chords).

(** [sum(1 for i in range(1, len(v)) if v[i] != v[i-1])] *)
Definition changes (v : list string) : nat :=
  list_sum
    (map (fun _ => 1)
       (filter (fun i => negb (String.eqb (nth i v "") (nth (i - 1) v "")))
          (seq 1 (List.length v - 1)))).

(** [changes / (len(v) - 1) if len(v) > 1 else 0], as an exact rational. *)
Definition change_ratio (v : list string) : Q :=
  if 1 <? List.length v
  then Qmake (Z.of_nat (changes v)) (Pos.of_nat (List.length v - 1))
  else 0%Q.

(** The three variables of the streak loop of [render_musical_features]. *)
Record streak_state : Type := mkStreak {
  current_chord : string;
  max_streak : nat;
  current_streak : nat
}.

Definition streak_step (st : streak_state) (chord : string) : streak_state :=
  if String.eqb chord (current_chord st)
  then mkStreak (current_chord st) (max_streak st) (current_streak st + 1)
  else
    mkStreak chord
      (if max_streak st <? current_streak st then current_streak st
       else max_streak st)
      1.

(** The value of [max_streak] shown by [render_musical_features]; [None]
    when [valid_chords] is empty and nothing is computed. *)
Definition longest_streak (v : list string) : option nat :=
  match v with
  | [] => None
  | first :: rest =>
      let st := fold_left streak_step rest (mkStreak first 1 1) in
      Some (if max_streak st <? current_streak st then current_streak st
            else max_streak st)
  end.

End AdvancedAnalysis.

(** ** Reference notions used to state the properties *)

Module Reference.
Import PyStr PyDict.

(** The distinct members of a list, in the order of their first
    occurrence. *)
Fixpoint first_seen (l : list string) : list string :=
  match l with
  | [] => []
  | x :: r => x :: filter (fun y => negb (String.eqb y x)) (first_seen r)
  end.

(** Counting a list of labels into a dictionary, one label after the
    other. *)
Definition tally (labels : list string) (d : dict nat) : dict nat :=
  fold_left (fun d l => upsert S 1 l d) labels d.

End Reference.

(** ** The remaining functions of the modelled files and their callers *)

Module Segments.
Import PyStr PyDict MidiGenerator.

Section FromNames.
Variable time : Type.

(** [i * duration], a floating-point product of which the model only needs
    that it is a function of [i]. *)
Variable scale : nat -> time.

(** The loop of [chords_list_to_segments], from index [i] on. *)
Fixpoint segments_from (i : nat) (chords : list string)
    : list (segment time) :=
  match chords with
  | [] => []
  | chord :: rest => (scale i, scale (i + 1), chord) :: segments_from (S i) rest
  end.

(** [chords_list_to_segments(chords, duration)] of
    [utils/midi_generator.py]. *)
Definition chords_list_to_segments (chords : list string)
    : list (segment time) :=
  segments_from 0 chords.

End FromNames.

Arguments segments_from {time}.
Arguments chords_list_to_segments {time}.

End Segments.

Module App.
Import PyStr PyDict MidiGenerator ChordAnalyzer.

(** [valid_chords] of [render_home_page] in [app.py]: the segments whose
    stripped label is non-empty and not ["nan"]. *)
Definition valid_segments {time : Type} (chords : list (chord time))
    : list (chord time) :=
  filter (fun c => is_valid_label (strip (snd c))) chords.

(** The MIDI button of [render_home_page]: nothing is offered without a
    valid segment; otherwise [chords_to_midi(valid_chords)] runs with its
    default file name and tempo. *)
Definition midi_of_analysis {time : Type} (chords : list (chord time))
    : option (midi_result time) :=
  match valid_segments chords with
  | [] => None
  | valid => Some (chords_to_midi valid None 100%Z)
  end.

End App.

Module Plots.
Import PyStr PyDict ChordAnalyzer.

(** [valid_chord_dist] of [create_chord_distribution_plot]: the entries with
    a non-empty key other than ["nan"] and a positive count. *)
Definition valid_chord_dist (chord_dist : dict nat) : dict nat :=
  filter (fun kv => truthy (fst kv) && negb (String.eqb (fst kv) "nan")
                    && (0 <? snd kv))
    chord_dist.

(** The bars of [create_chord_distribution_plot] for a statistics
    dictionary: names and counts, or [None] for the empty figure. *)
Definition distribution_bars (stats : option ChordStatistics)
    : option (list string * list nat) :=
  match stats with
  | None => None
  | Some st =>
      match chord_distribution st with
      | [] => None
      | chord_dist =>
          match valid_chord_dist chord_dist with
          | [] => None
          | valid => Some (keys valid, values valid)
          end
      end
  end.

End Plots.

Module Timeline.
Import PyStr PyDict ChordAnalyzer.

Section Rows.
Variable time : Type.

(** [valid_data] of [display_chord_timeline] in
    [components/analysis_display.py]: one row (start, end, stripped label)
    per valid segment. *)
Fixpoint valid_data (chords : list (chord time))
    : list (time * time * string) :=
  match chords with
  | [] => []
  | (start, end_, label) :: rest =>
      let label_str := strip label in
      if is_valid_label label_str
      then (start, end_, label_str) :: valid_data rest
      else valid_data rest
  end.

(** The loop of [create_chord_timeline_plot]: the lists [valid_times] and
    [valid_chords], the x and y coordinates of the markers. *)
Fixpoint timeline_points (chords : list (chord time))
    : list time * list string :=
  match chords with
  | [] => ([], [])
  | (start, _, label) :: rest =>
      let label_str := strip label in
      let '(valid_times, valid_chords) := timeline_points rest in
      if is_valid_label label_str
      then (start :: valid_times, label_str :: valid_chords)
      else (valid_times, valid_chords)
  end.

End Rows.

Arguments valid_data {time}.
Arguments timeline_points {time}.

End Timeline.

Module Features.
Import PyStr PyDict ChordAnalyzer AdvancedAnalysis.

(** [len(set(valid_chords))] *)
Definition distinct_count (v : list string) : nat :=
  List.length (nodup string_dec v).

(** [unique_ratio] of [render_chord_pattern_analysis]:
    [len(set(v)) / len(v) if v else 0], as an exact rational. *)
Definition unique_ratio (v : list string) : Q :=
  match v with
  | [] => 0%Q
  | _ => Qmake (Z.of_nat (distinct_count v)) (Pos.of_nat (List.length v))
  end.

(** [major_chords] of [render_musical_features]. *)
Definition major_chords (v : list string) : list string :=
  filter (fun c => negb (contains "m" c) && negb (String.eqb c "N")) v.

(** [minor_chords] of [render_musical_features]. *)
Definition minor_chords (v : list string) : list string :=
  filter (fun c => contains "m" c) v.

End Features.

Module Notions.
Import PyStr PyDict MidiGenerator.

(** A chord name that passes the three tests of the loop of
    [chords_to_midi]: non-empty, not ["N"], root found in the table. *)
Definition sounding (chord : string) : bool :=
  truthy chord && negb (String.eqb chord "N") &&
  match resolve_chord chord with Some _ => true | None => false end.

(** The twelve keys of [CHORD_ROOT_MAP] written without a flat. *)
Definition sharp_roots : list string :=
  ["C"; "C#"; "D"; "D#"; "E"; "F"; "F#"; "G"; "G#"; "A"; "A#"; "B"].

End Notions.

Module FeatureNotions.
Import PyStr AdvancedAnalysis.

(** The number of adjacent pairs of different labels, by recursion on the
    list. *)
Fixpoint adjacent_changes (v : list string) : nat :=
  match v with
  | [] => 0
  | a :: r =>
      match r with
      | [] => 0
      | b :: _ => (if String.eqb b a then 0 else 1) + adjacent_changes r
      end
  end.

(** [v] holds [m] consecutive occurrences of [x]. *)
Definition has_run (v : list string) (x : string) (m : nat) : Prop :=
  exists pre post, v = pre ++ repeat x m ++ post.

(** What the three variables of the streak loop mean once the labels [p]
    have been read: [p] ends with a run of [current_streak] occurrences of
    [current_chord] that cannot be extended to the left, [max_streak] is the
    length of some run of [p], and no run of [p] is longer than both. *)
Definition streak_inv (p : list string) (st : streak_state) : Prop :=
  1 <= current_streak st /\ 1 <= max_streak st /\
  (exists q, p = q ++ repeat (current_chord st) (current_streak st) /\
             forall q' y, q = q' ++ [y] -> y <> current_chord st) /\
  (exists x, has_run p x (max_streak st)) /\
  (forall x m, has_run p x m ->
               m <= Nat.max (max_streak st) (current_streak st)).

End FeatureNotions.

(** * Properties of the note synthesis *)

Module MidiGeneratorProofs.
Import PyStr PyDict MidiGenerator.

Local Open Scope Z_scope.

(** *** The dictionaries *)

Lemma get_In {V : Type} (d : dict V) (k : string) (v : V) :
  get d k = Some v -> In (k, v) d.
Proof.
  induction d as [| [k' v'] d IH]; simpl; [discriminate |].
  destruct (String.eqb_spec k k') as [-> | _].
  - intros [= ->]. now left.
  - intros H. right. now apply IH.
Qed.

Lemma get_In_values {V : Type} (d : dict V) (k : string) (v : V) :
  get d k = Some v -> In v (values d).
Proof.
  intros H. apply get_In in H. unfold values.
  change v with (snd (k, v)). now apply in_map.
Qed.

Lemma intervals_of_In (ctype : string) :
  In (intervals_of ctype) (values CHORD_TYPE_MAP).
Proof.
  unfold intervals_of, get_default.
  destruct (get CHORD_TYPE_MAP ctype) as [ivs |] eqn:E.
  - now apply get_In_values with (k := ctype).
  - simpl. now left.
Qed.

Lemma resolve_chord_tables (chord : string) (r : Z) (ivs : list Z) :
  resolve_chord chord = Some (r, ivs) ->
  In r (values CHORD_ROOT_MAP) /\ In ivs (values CHORD_TYPE_MAP).
Proof.
  unfold resolve_chord. destruct (parse_chord chord) as [root ctype].
  destruct (get CHORD_ROOT_MAP root) as [root_note |] eqn:E; [| discriminate].
  intros [= <- <-]. split.
  - now apply get_In_values with (k := root).
  - apply intervals_of_In.
Qed.

Lemma root_values_range (r : Z) :
  In r (values CHORD_ROOT_MAP) -> 60 <= r <= 71.
Proof.
  simpl. intros H.
  repeat (destruct H as [<- | H]; [lia |]). contradiction.
Qed.

Lemma interval_values_range (ivs : list Z) (i : Z) :
  In ivs (values CHORD_TYPE_MAP) -> In i ivs -> 0 <= i <= 11.
Proof.
  simpl. intros H.
  repeat (destruct H as [<- | H];
          [simpl; intros Hi;
           repeat (destruct Hi as [<- | Hi]; [lia |]); contradiction |]).
  contradiction.
Qed.

(** Every interval set of the table has three or four members. *)
Lemma interval_values_length (ivs : list Z) :
  In ivs (values CHORD_TYPE_MAP) -> (3 <= List.length ivs)%nat.
Proof.
  simpl. intros H.
  repeat (destruct H as [<- | H]; [simpl; lia |]). contradiction.
Qed.

(** *** The loop *)

Section Loop.
Context {time : Type}.

Lemma fold_collect (segs : list (segment time)) (acc : list (Note time)) :
  fold_left (fun notes seg => notes ++ segment_notes seg) segs acc
  = acc ++ flat_map segment_notes segs.
Proof.
  revert acc. induction segs as [| seg segs IH]; intros acc; simpl.
  - now rewrite app_nil_r.
  - rewrite IH. now rewrite <- app_assoc.
Qed.

(** Notes come out in segment order: the loop is a [flat_map]. *)
Lemma collect_notes_flat_map (segs : list (segment time)) :
  collect_notes segs = flat_map segment_notes segs.
Proof. unfold collect_notes. now rewrite fold_collect. Qed.

Lemma collect_notes_app (l1 l2 : list (segment time)) :
  collect_notes (l1 ++ l2) = collect_notes l1 ++ collect_notes l2.
Proof. rewrite !collect_notes_flat_map. apply flat_map_app. Qed.

(** A note of a segment is a table root plus a table interval, at
    velocity 80, over the segment's window. *)
Lemma segment_notes_In (seg : segment time) (n : Note time) :
  In n (segment_notes seg) ->
  exists r ivs i,
    In r (values CHORD_ROOT_MAP) /\ In ivs (values CHORD_TYPE_MAP) /\
    In i ivs /\ pitch n = r + i /\ velocity n = 80 /\
    start n = fst (fst seg) /\ end_ n = snd (fst seg).
Proof.
  destruct seg as [[s e] chord]. unfold segment_notes.
  destruct (negb (truthy chord) || String.eqb chord "N")%bool;
    [contradiction |].
  destruct (resolve_chord chord) as [[r ivs] |] eqn:E; [| contradiction].
  apply resolve_chord_tables in E as [Hr Hivs].
  rewrite map_map. intros Hn. apply in_map_iff in Hn as [i [<- Hi]].
  exists r, ivs, i. simpl. now repeat split.
Qed.

(** A segment contributes no note at all, or at least three. *)
Lemma segment_notes_length (seg : segment time) :
  segment_notes seg = [] \/ (3 <= List.length (segment_notes seg))%nat.
Proof.
  destruct seg as [[s e] chord]. unfold segment_notes.
  destruct (negb (truthy chord) || String.eqb chord "N")%bool;
    [now left |].
  destruct (resolve_chord chord) as [[r ivs] |] eqn:E; [| now left].
  right. rewrite !length_map.
  apply resolve_chord_tables in E as [_ Hivs].
  now apply interval_values_length.
Qed.

Lemma collect_notes_length (segs : list (segment time)) :
  collect_notes segs = [] \/ (3 <= List.length (collect_notes segs))%nat.
Proof.
  rewrite collect_notes_flat_map.
  induction segs as [| seg segs IH]; simpl; [now left |].
  rewrite length_app.
  destruct (segment_notes_length seg) as [-> | H3]; simpl; [exact IH |].
  right. lia.
Qed.

(** The guard [len(notes) < 2] therefore fires exactly when no note at all
    was produced. *)
Lemma chords_to_midi_insufficient_iff (segs : list (segment time))
    (filename : option string) (tempo : Z) :
  chords_to_midi segs filename tempo = InsufficientNotes
  <-> collect_notes segs = [].
Proof.
  unfold chords_to_midi.
  destruct (collect_notes_length segs) as [E | H3].
  - rewrite E. simpl. tauto.
  - destruct (Nat.ltb_spec (List.length (collect_notes segs)) 2) as [H | H].
    + lia.
    + split; [discriminate |]. intros E. rewrite E in H3. simpl in H3. lia.
Qed.

Lemma chords_to_midi_written (segs : list (segment time))
    (filename out : option string) (tempo : Z) (notes : list (Note time)) :
  chords_to_midi segs filename tempo = MidiWritten out notes ->
  out = filename /\ notes = collect_notes segs.
Proof.
  unfold chords_to_midi.
  destruct (List.length (collect_notes segs) <? 2)%nat; [discriminate |].
  now intros [= <- <-].
Qed.
End Loop.

(** *** Roots written with a flat *)

Lemma upper_char_not_b (c : ascii) : upper_char c <> "b"%char.
Proof.
  destruct c as [[] [] [] [] [] [] [] []]; vm_compute; discriminate.
Qed.

Lemma upper_no_b (s : string) : contains "b" (upper s) = false.
Proof.
  induction s as [| c s IH]; [reflexivity |].
  change (Ascii.eqb "b" (upper_char c) || contains "b" (upper s) = false)%bool.
  rewrite IH, orb_false_r.
  destruct (Ascii.eqb_spec "b"%char (upper_char c)) as [E | _];
    [| reflexivity].
  symmetry in E. now destruct (upper_char_not_b c).
Qed.

(** The root handed to the table never contains a lower-case [b], so the five
    keys [Db], [Eb], [Gb], [Ab] and [Bb] of [CHORD_ROOT_MAP] are never
    found. *)
Lemma parse_chord_root_no_flat (chord : string) :
  contains "b" (fst (parse_chord chord)) = false.
Proof.
  unfold parse_chord.
  destruct (if contains ":" chord then split1 ":" chord
            else (chord, EmptyString)) as [root ctype].
  simpl. apply upper_no_b.
Qed.

End MidiGeneratorProofs.

(** * The claims about synthesis *)

Module SynthesisClaims.
Import PyStr PyDict MidiGenerator MidiGeneratorProofs.

Local Open Scope Z_scope.

(** C2 (the code at the claim's input).  A sequence with a single chord
    segment, here ["C:maj"], is not rejected: its three notes already pass
    the guard [len(notes) < 2], and they are handed to the MIDI writer. *)
Theorem single_chord_segment_is_written :
  forall (time : Type) (s e : time) (filename : option string) (tempo : Z),
    chords_to_midi [(s, e, "C:maj")] filename tempo
    = MidiWritten filename
        [mkNote 80 60 s e; mkNote 80 64 s e; mkNote 80 67 s e].
Proof. reflexivity. Qed.

(** The same for every single segment whose chord resolves: synthesis is
    refused only when the whole sequence yields no note at all. *)
Lemma single_resolved_segment_is_written :
  forall (time : Type) (s e : time) (chord : string) (r : Z) (ivs : list Z)
         (filename : option string) (tempo : Z),
    chord <> "" -> chord <> "N" -> resolve_chord chord = Some (r, ivs) ->
    chords_to_midi [(s, e, chord)] filename tempo <> InsufficientNotes.
Proof.
  intros time s e chord r ivs filename tempo Hne HN Hres H.
  apply chords_to_midi_insufficient_iff in H.
  rewrite collect_notes_flat_map in H. simpl in H. rewrite app_nil_r in H.
  pose proof (resolve_chord_tables _ _ _ Hres) as [_ Hivs].
  apply interval_values_length in Hivs.
  destruct chord as [| c chord]; [congruence |].
  destruct (String.eqb_spec (String c chord) "N") as [E | _]; [congruence |].
  simpl in H. rewrite Hres in H.
  destruct ivs as [| i ivs]; [simpl in Hivs; lia | discriminate].
Qed.

(** C3 (the code at the claim's inputs).  ["D:maj"] resolves to root 62 with
    intervals 0, 4, 7 and ["Xb:maj"] has no root in the table; but
    ["Bb:min"] has none either: its root is upper-cased to ["BB"], which is
    not the key ["Bb"] under which the table holds 70. *)
Theorem resolve_chord_examples :
  resolve_chord "D:maj" = Some (62, [0; 4; 7]) /\
  resolve_chord "Xb:maj" = None /\
  parse_chord "Bb:min" = ("BB", "min") /\
  get CHORD_ROOT_MAP "Bb" = Some 70 /\
  get CHORD_ROOT_MAP "BB" = None /\
  resolve_chord "Bb:min" = None.
Proof. repeat split. Qed.

(** C5.  Two ["C:maj"] segments give exactly six notes: 60, 64, 67 over the
    first window, then 60, 64, 67 over the second, all at velocity 80. *)
Theorem two_c_major_segments :
  forall (time : Type) (s1 e1 s2 e2 : time) (filename : option string)
         (tempo : Z),
    let notes :=
      [mkNote 80 60 s1 e1; mkNote 80 64 s1 e1; mkNote 80 67 s1 e1;
       mkNote 80 60 s2 e2; mkNote 80 64 s2 e2; mkNote 80 67 s2 e2] in
    chords_to_midi [(s1, e1, "C:maj"); (s2, e2, "C:maj")] filename tempo
    = MidiWritten filename notes /\
    List.length notes = 6%nat.
Proof. intros. split; reflexivity. Qed.

(** C8.  The tempo has no influence on the outcome of the synthesis. *)
Theorem tempo_noninterference :
  forall (time : Type) (segs : list (segment time))
         (filename : option string) (tempo1 tempo2 : Z),
    chords_to_midi segs filename tempo1 = chords_to_midi segs filename tempo2.
Proof. reflexivity. Qed.

(** C10.  Every note of a synthesised sequence has a pitch that is a root of
    [CHORD_ROOT_MAP] plus an interval of [CHORD_TYPE_MAP], hence between 60
    and 82 and a valid MIDI pitch, and has velocity 80. *)
Theorem synthesized_note_ranges :
  forall (time : Type) (segs : list (segment time))
         (filename out : option string) (tempo : Z)
         (notes : list (Note time)) (n : Note time),
    chords_to_midi segs filename tempo = MidiWritten out notes ->
    In n notes ->
    (exists r ivs i,
        In r (values CHORD_ROOT_MAP) /\ In ivs (values CHORD_TYPE_MAP) /\
        In i ivs /\ pitch n = r + i) /\
    60 <= pitch n <= 82 /\ 0 <= pitch n <= 127 /\ velocity n = 80.
Proof.
  intros time segs filename out tempo notes n Hw Hn.
  apply chords_to_midi_written in Hw as [_ ->].
  rewrite collect_notes_flat_map in Hn.
  apply in_flat_map in Hn as [seg [_ Hn]].
  apply segment_notes_In in Hn
    as (r & ivs & i & Hr & Hivs & Hi & Hp & Hv & _).
  pose proof (root_values_range r Hr).
  pose proof (interval_values_range ivs i Hivs Hi).
  split; [now exists r, ivs, i |]. lia.
Qed.

Lemma synthesized_note_ranges_witness :
  let segs := [(0%nat, 1%nat, "C:maj"); (1%nat, 2%nat, "B:maj7")] in
  let n := mkNote 80 82 1%nat 2%nat in
  In n (collect_notes segs) /\
  60 <= pitch n <= 82 /\ 0 <= pitch n <= 127 /\ velocity n = 80.
Proof.
  intros segs n. split.
  - simpl. tauto.
  - apply (synthesized_note_ranges nat segs None None 100
             (collect_notes segs) n).
    + reflexivity.
    + simpl. tauto.
Defined.

End SynthesisClaims.

(** * Properties of the statistics *)

Module ChordAnalyzerProofs.
Import PyStr PyDict ChordAnalyzer AdvancedAnalysis Reference.

(** *** Insertion into a dictionary *)

Lemma mem_In_keys {V : Type} (d : dict V) (k : string) :
  mem d k = true <-> In k (keys d).
Proof.
  unfold mem. induction d as [| [k' v] d IH]; simpl.
  - split; [discriminate | contradiction].
  - destruct (String.eqb_spec k k') as [-> | Hne].
    + split; auto.
    + rewrite IH. split; [auto | intros [E | H]; congruence].
Qed.

Lemma mem_false_keys {V : Type} (d : dict V) (k : string) :
  mem d k = false <-> ~ In k (keys d).
Proof.
  rewrite <- mem_In_keys. destruct (mem d k); split; congruence.
Qed.

Lemma get_upsert {V : Type} (f : V -> V) (v0 : V) (x : string) (d : dict V)
    (k : string) :
  get (upsert f v0 x d) k =
  if String.eqb k x
  then Some (match get d x with Some v => f v | None => v0 end)
  else get d k.
Proof.
  induction d as [| [k' v] d IH]; simpl.
  - reflexivity.
  - destruct (String.eqb_spec x k') as [<- | Hne]; simpl.
    + destruct (String.eqb_spec k x); reflexivity.
    + rewrite IH. destruct (String.eqb_spec k x) as [E | Hkx].
      * rewrite E. destruct (String.eqb_spec x k');
          [contradiction | reflexivity].
      * reflexivity.
Qed.

Lemma mem_upsert {V : Type} (f : V -> V) (v0 : V) (x : string) (d : dict V)
    (k : string) :
  mem (upsert f v0 x d) k = (String.eqb k x || mem d k)%bool.
Proof.
  unfold mem. rewrite get_upsert. now destruct (String.eqb k x).
Qed.

Lemma keys_upsert {V : Type} (f : V -> V) (v0 : V) (x : string)
    (d : dict V) :
  keys (upsert f v0 x d) = if mem d x then keys d else keys d ++ [x].
Proof.
  unfold mem. induction d as [| [k' v] d IH]; simpl.
  - reflexivity.
  - destruct (String.eqb_spec x k') as [<- | Hne]; simpl.
    + reflexivity.
    + rewrite IH. now destruct (get d x).
Qed.

Lemma NoDup_keys_upsert {V : Type} (f : V -> V) (v0 : V) (x : string)
    (d : dict V) :
  NoDup (keys d) -> NoDup (keys (upsert f v0 x d)).
Proof.
  intros Hd. rewrite keys_upsert. destruct (mem d x) eqn:E; [exact Hd |].
  apply mem_false_keys in E.
  apply NoDup_rev in Hd. rewrite <- (rev_involutive (keys d ++ [x])).
  apply NoDup_rev. rewrite rev_app_distr. simpl.
  constructor; [| exact Hd]. now rewrite <- in_rev.
Qed.

Lemma In_get {V : Type} (d : dict V) (k : string) (v : V) :
  NoDup (keys d) -> In (k, v) d -> get d k = Some v.
Proof.
  induction d as [| [k' v'] d IH]; simpl; [contradiction |].
  intros Hnd [E | Hin].
  - injection E as -> ->. now rewrite String.eqb_refl.
  - inversion Hnd as [| ? ? Hnotin Hnd']; subst.
    destruct (String.eqb_spec k k') as [-> | _].
    + exfalso. apply Hnotin. unfold keys.
      change k' with (fst (k', v)). now apply in_map.
    + now apply IH.
Qed.

Lemma list_sum_upsert (x : string) (d : dict nat) :
  list_sum (values (upsert S 1 x d)) = S (list_sum (values d)).
Proof.
  induction d as [| [k' v] d IH]; simpl.
  - reflexivity.
  - destruct (String.eqb x k'); simpl; [reflexivity |].
    rewrite IH. lia.
Qed.

(** *** Counting labels *)

Lemma filter_filter {A : Type} (f g : A -> bool) (l : list A) :
  filter f (filter g l) = filter (fun a => g a && f a)%bool l.
Proof.
  induction l as [| a l IH]; simpl; [reflexivity |].
  destruct (g a); simpl; [destruct (f a) |]; now rewrite IH.
Qed.

Lemma keys_tally (labels : list string) (d : dict nat) :
  keys (tally labels d)
  = keys d ++ filter (fun k => negb (mem d k)) (first_seen labels).
Proof.
  unfold tally. revert d.
  induction labels as [| x r IH]; intros d; simpl.
  - now rewrite app_nil_r.
  - rewrite IH, keys_upsert. destruct (mem d x) eqn:E; simpl.
    + f_equal. rewrite filter_filter. apply filter_ext. intros k.
      rewrite mem_upsert.
      destruct (String.eqb_spec k x) as [-> | _]; simpl; [| reflexivity].
      now rewrite ?E.
    + rewrite <- app_assoc. simpl. do 2 f_equal.
      rewrite filter_filter. apply filter_ext. intros k.
      rewrite mem_upsert. now destruct (String.eqb k x).
Qed.

Lemma NoDup_keys_tally (labels : list string) (d : dict nat) :
  NoDup (keys d) -> NoDup (keys (tally labels d)).
Proof.
  unfold tally. revert d.
  induction labels as [| x r IH]; intros d Hd; simpl; [exact Hd |].
  apply IH. now apply NoDup_keys_upsert.
Qed.

Lemma get_tally (labels : list string) (d : dict nat) (k : string) :
  get_default (tally labels d) k 0
  = count_occ string_dec labels k + get_default d k 0.
Proof.
  unfold tally. revert d.
  induction labels as [| x r IH]; intros d; simpl; [reflexivity |].
  rewrite IH. unfold get_default at 1. rewrite get_upsert.
  destruct (string_dec x k) as [-> | Hne].
  - rewrite String.eqb_refl. unfold get_default.
    destruct (get d k); lia.
  - destruct (String.eqb_spec k x) as [-> | _]; [contradiction |].
    reflexivity.
Qed.

Lemma list_sum_tally (labels : list string) (d : dict nat) :
  list_sum (values (tally labels d))
  = List.length labels + list_sum (values d).
Proof.
  unfold tally. revert d.
  induction labels as [| x r IH]; intros d; simpl; [reflexivity |].
  rewrite IH, list_sum_upsert. lia.
Qed.

Section Counting.
Context {time : Type}.

Lemma fold_count_label (chords : list (chord time)) (d : dict nat) :
  fold_left count_label chords d = tally (valid_chords chords) d.
Proof.
  unfold valid_chords, tally. revert d.
  induction chords as [| [[s e] label] chords IH]; intros d; simpl.
  - reflexivity.
  - rewrite IH. now destruct (is_valid_label (strip label)).
Qed.

(** The distribution is the tally of the valid labels. *)
Lemma count_chords_tally (chords : list (chord time)) :
  count_chords chords = tally (valid_chords chords) [].
Proof. apply fold_count_label. Qed.

(** Its keys are the valid labels in first-seen order. *)
Lemma count_chords_keys (chords : list (chord time)) :
  keys (count_chords chords) = first_seen (valid_chords chords).
Proof.
  rewrite count_chords_tally, keys_tally. simpl.
  induction (first_seen (valid_chords chords)) as [| k l IH]; simpl;
    [reflexivity | now rewrite IH].
Qed.

(** Each key is mapped to its number of occurrences. *)
Lemma count_chords_occ (chords : list (chord time)) (k : string) (v : nat) :
  In (k, v) (count_chords chords) ->
  v = count_occ string_dec (valid_chords chords) k.
Proof.
  rewrite count_chords_tally. intros Hin.
  apply In_get in Hin; [| apply NoDup_keys_tally; constructor].
  pose proof (get_tally (valid_chords chords) [] k) as H.
  unfold get_default in H. rewrite Hin in H. simpl in H. lia.
Qed.

(** A label that is no key does not occur. *)
Lemma count_chords_get (chords : list (chord time)) (k : string) :
  get_default (count_chords chords) k 0
  = count_occ string_dec (valid_chords chords) k.
Proof.
  rewrite count_chords_tally, get_tally. unfold get_default. simpl. lia.
Qed.

Lemma count_chords_sum (chords : list (chord time)) :
  list_sum (values (count_chords chords))
  = List.length (valid_chords chords).
Proof. rewrite count_chords_tally, list_sum_tally. simpl. lia. Qed.

Lemma count_chords_nil_iff (chords : list (chord time)) :
  count_chords chords = [] <-> valid_chords chords = [].
Proof.
  split; intros H.
  - pose proof (count_chords_sum chords) as Hs. rewrite H in Hs.
    simpl in Hs. now destruct (valid_chords chords).
  - rewrite count_chords_tally, H. reflexivity.
Qed.
End Counting.

(** *** First occurrences *)

Lemma filter_eq_app_cons {A : Type} (f : A -> bool) (l : list A) :
  forall (l1 l2 : list A) (a : A),
    filter f l = l1 ++ a :: l2 ->
    exists m1 m2,
      l = m1 ++ a :: m2 /\ filter f m1 = l1 /\ filter f m2 = l2 /\
      f a = true.
Proof.
  induction l as [| b l IH]; intros l1 l2 a; simpl.
  - destruct l1; discriminate.
  - destruct (f b) eqn:Eb.
    + destruct l1 as [| c l1]; simpl; intros E; injection E as Ec E.
      * subst b. exists [], l. simpl. now repeat split.
      * subst c. destruct (IH _ _ _ E) as (m1 & m2 & -> & H1 & H2 & Ha).
        exists (b :: m1), m2. simpl. rewrite Eb, H1. now repeat split.
    + intros E. destruct (IH _ _ _ E) as (m1 & m2 & -> & H1 & H2 & Ha).
      exists (b :: m1), m2. simpl. rewrite Eb. now repeat split.
Qed.

(** If [k] stands in [first_seen l] after the keys [ks1], then [l] splits at
    the first occurrence of [k], and whatever precedes it is in [ks1]. *)
Lemma first_seen_split (l : list string) :
  forall (ks1 ks2 : list string) (k : string),
    first_seen l = ks1 ++ k :: ks2 ->
    exists p q,
      l = p ++ k :: q /\ ~ In k p /\ (forall y, In y p -> In y ks1).
Proof.
  induction l as [| x r IH]; intros ks1 ks2 k; simpl.
  - destruct ks1; discriminate.
  - destruct ks1 as [| k1 ks1]; simpl; intros E; injection E as Ex E.
    + subst x. exists [], r. simpl. repeat split; tauto.
    + subst k1.
      destruct (filter_eq_app_cons _ _ _ _ _ E)
        as (m1 & m2 & Efs & H1 & _ & Hk).
      destruct (IH _ _ _ Efs) as (p & q & -> & Hnotin & Hp).
      apply negb_true_iff in Hk.
      destruct (String.eqb_spec k x) as [| Hkx]; [discriminate |].
      exists (x :: p), q. simpl. repeat split.
      * intros [E' | Hin]; [congruence | contradiction].
      * intros y [<- | Hy]; [now left |].
        destruct (string_dec y x) as [-> | Hyx]; [now left |]. right.
        rewrite <- H1. apply filter_In. split; [now apply Hp |].
        apply negb_true_iff. now apply String.eqb_neq.
Qed.

Lemma In_keys_entry {V : Type} (d : dict V) (k : string) :
  In k (keys d) -> exists v, In (k, v) d.
Proof.
  unfold keys. intros H. apply in_map_iff in H as [[k' v] [E Hin]].
  simpl in E. subst k'. now exists v.
Qed.

(** *** The maximum *)

Lemma max_by_count_spec (items : list (string * nat)) :
  forall best : string * nat,
    let m := max_by_count best items in
    (forall x, In x (best :: items) -> snd x <= snd m) /\
    exists pre post,
      best :: items = pre ++ m :: post /\
      (forall x, In x pre -> snd x < snd m).
Proof.
  induction items as [| x rest IH]; intros best; simpl.
  - split.
    + intros y [<- | []]. lia.
    + exists [], []. split; [reflexivity | intros y []].
  - destruct (Nat.ltb_spec (snd best) (snd x)) as [Hlt | Hge].
    + destruct (IH x) as [Hmax (pre & post & E & Hpre)]. split.
      * intros y [<- | Hy]; [| now apply Hmax].
        specialize (Hmax x (or_introl eq_refl)). lia.
      * exists (best :: pre), post. split; [simpl; f_equal; exact E |].
        intros y [<- | Hy]; [| now apply Hpre].
        specialize (Hmax x (or_introl eq_refl)). lia.
    + destruct (IH best) as [Hmax (pre & post & E & Hpre)]. split.
      * intros y [<- | [<- | Hy]].
        -- apply Hmax. now left.
        -- specialize (Hmax best (or_introl eq_refl)). lia.
        -- apply Hmax. now right.
      * destruct pre as [| b pre]; simpl in E.
        -- injection E as Eb Er. exists [], (x :: rest).
           split; [simpl; f_equal; exact Eb | intros y []].
        -- injection E as Eb Er. subst b.
           exists (best :: x :: pre), post.
           split; [simpl; do 2 f_equal; exact Er |].
           assert (Hb : snd best < snd (max_by_count best rest))
             by (apply Hpre; now left).
           intros y [<- | [<- | Hy]]; [exact Hb | lia |].
           apply Hpre. now right.
Qed.

End ChordAnalyzerProofs.

(** * The claims about the statistics *)

Module StatisticsClaims.
Import PyStr PyDict ChordAnalyzer AdvancedAnalysis Reference.
Import ChordAnalyzerProofs.

Lemma filter_length_eq_iff {A : Type} (f : A -> bool) (l : list A) :
  List.length (filter f l) = List.length l <-> Forall (fun a => f a = true) l.
Proof.
  induction l as [| a l IH]; simpl.
  - split; [constructor | reflexivity].
  - pose proof (filter_length_le f l) as Hle.
    destruct (f a) eqn:E; simpl.
    + split.
      * intros H. constructor; [exact E |]. apply IH. lia.
      * intros H. inversion H; subst. f_equal. now apply IH.
    + split; [lia |]. intros H. inversion H; subst. congruence.
Qed.

Lemma valid_chords_length_le {time : Type} (chords : list (chord time)) :
  List.length (valid_chords chords) <= List.length chords.
Proof.
  unfold valid_chords.
  rewrite <- (length_map (fun c : chord time => strip (snd c)) chords).
  apply filter_length_le.
Qed.

Lemma statistics_of_nonempty {time : Type} (chords : list (chord time)) :
  chords <> [] ->
  exists st,
    _analyze_chord_statistics chords = Some st /\
    total_chords st = List.length chords /\
    unique_chords st = List.length (count_chords chords) /\
    chord_distribution st = count_chords chords.
Proof.
  destruct chords as [| c chords]; [congruence |]. intros _.
  eexists. split; [reflexivity |]. simpl. repeat split.
Qed.

(** C1 (counterexample).  With one valid and one ["nan"] segment the total
    is 2 while there is a single valid segment. *)
Lemma total_chords_counts_invalid_segments :
  let chords : list (chord nat) := [(0, 1, "C"); (1, 2, "nan")] in
  exists st,
    _analyze_chord_statistics chords = Some st /\
    total_chords st <> List.length (valid_chords chords).
Proof.
  simpl. eexists. split; [reflexivity |]. simpl. discriminate.
Qed.

(** C1 (amended).  For a non-empty sequence [total_chords] is the number of
    all its segments; the number of valid segments is the sum of the
    distribution, is at most [total_chords], and equals it exactly when
    every segment is valid. *)
Theorem total_chords_is_sequence_length :
  forall (time : Type) (chords : list (chord time)),
    chords <> [] ->
    exists st,
      _analyze_chord_statistics chords = Some st /\
      total_chords st = List.length chords /\
      list_sum (values (chord_distribution st))
      = List.length (valid_chords chords) /\
      List.length (valid_chords chords) <= total_chords st /\
      (total_chords st = List.length (valid_chords chords) <->
       Forall (fun c => is_valid_label (strip (snd c)) = true) chords).
Proof.
  intros time chords Hne.
  destruct (statistics_of_nonempty chords Hne) as (st & Hst & Ht & _ & Hd).
  exists st. rewrite Ht, Hd. repeat split.
  - exact Hst.
  - apply count_chords_sum.
  - apply valid_chords_length_le.
  - intros H. unfold valid_chords in H.
    rewrite <- (length_map (fun c : chord time => strip (snd c)) chords)
      in H at 1.
    symmetry in H. apply filter_length_eq_iff in H.
    now rewrite Forall_map in H.
  - intros H. unfold valid_chords.
    rewrite <- (length_map (fun c : chord time => strip (snd c)) chords)
      at 1.
    symmetry. apply filter_length_eq_iff. now rewrite Forall_map.
Qed.

Lemma total_chords_is_sequence_length_witness :
  let chords : list (chord nat) := [(0, 1, "C"); (1, 2, "nan")] in
  chords <> [] /\
  exists st,
    _analyze_chord_statistics chords = Some st /\
    total_chords st = 2 /\
    list_sum (values (chord_distribution st)) = 1.
Proof.
  intros chords.
  assert (Hne : chords <> []) by discriminate.
  split; [exact Hne |].
  destruct (total_chords_is_sequence_length nat chords Hne)
    as (st & Hst & Ht & Hs & _).
  exists st. repeat split; assumption.
Defined.

(** Which inputs make the loop raise, and which leave no segment. *)
Lemma normalize_None_iff {time : Type} (chords_arr : list (raw_item time)) :
  normalize chords_arr = None <->
  exists s e label,
    In (RawTriple s e label) chords_arr /\ (s = None \/ e = None).
Proof.
  induction chords_arr as [| [[s |] [e |] label |] rest IH]; simpl.
  - split; [discriminate | intros (s & e & l & [] & _)].
  - destruct (normalize rest) as [chords |].
    + split; [discriminate |].
      intros (s' & e' & l' & [H | Hin] & Hbad).
      * injection H as <- <- <-. destruct Hbad; discriminate.
      * assert (Habs : Some chords = None)
          by (apply (proj2 IH); now exists s', e', l').
        discriminate.
    + split; [| reflexivity]. intros _.
      destruct (proj1 IH eq_refl) as (s' & e' & l' & Hin & Hbad).
      exists s', e', l'. split; [now right | exact Hbad].
  - split; [| reflexivity]. intros _.
    exists (Some s), None, label. split; [now left | now right].
  - split; [| reflexivity]. intros _.
    exists None, (Some e), label. split; [now left | now left].
  - split; [| reflexivity]. intros _.
    exists None, None, label. split; [now left | now left].
  - rewrite IH. split; intros (s' & e' & l' & Hin & Hbad);
      exists s', e', l'; (split; [| exact Hbad]).
    + now right.
    + destruct Hin as [H | Hin]; [discriminate | exact Hin].
Qed.

Lemma normalize_nil_iff {time : Type} (chords_arr : list (raw_item time)) :
  normalize chords_arr = Some [] <-> Forall (fun c => c = RawOther) chords_arr.
Proof.
  induction chords_arr as [| [[s |] [e |] label |] rest IH]; simpl.
  - split; [constructor | reflexivity].
  - split.
    + destruct (normalize rest); discriminate.
    + intros H. inversion H; discriminate.
  - split; [discriminate | intros H; inversion H; discriminate].
  - split; [discriminate | intros H; inversion H; discriminate].
  - split; [discriminate | intros H; inversion H; discriminate].
  - rewrite IH. split.
    + intros H. now constructor.
    + intros H. now inversion H.
Qed.

(** C4 (counterexample).  A non-empty sequence without any valid label is
    analysed successfully. *)
Lemma analysis_without_valid_label_succeeds :
  let chords_arr : list (raw_item nat) :=
    [RawTriple (Some 0) (Some 1) ""; RawTriple (Some 1) (Some 2) "  ";
     RawTriple (Some 2) (Some 3) "nan"] in
  exists chords,
    normalize chords_arr = Some chords /\
    valid_chords chords = [] /\
    analyze_audio_file chords_arr <> None.
Proof.
  simpl. eexists. split; [reflexivity |].
  split; [reflexivity | discriminate].
Qed.

(** C4 (amended).  The analysis returns no result in exactly two cases.
    Either some 3-tuple has a start or an end that [float] rejects: the
    exception is caught and an error is shown.  Or no conversion fails and
    the normalised sequence has no segment at all, valid or not, which is
    when the output holds no 3-tuple: then the warning is shown; in
    particular this is what happens on the empty input.  A non-empty
    normalised sequence without valid label yields a result, whose
    distribution is empty. *)
Theorem analysis_fails_iff_error_or_no_segment :
  forall (time : Type) (chords_arr : list (raw_item time)),
    (analyze_audio_file chords_arr = None <->
     normalize chords_arr = None \/ normalize chords_arr = Some []) /\
    (analysis_notice chords_arr = Some AnalysisError <->
     exists s e label,
       In (RawTriple s e label) chords_arr /\ (s = None \/ e = None)) /\
    (analysis_notice chords_arr = Some NoChordsWarning <->
     normalize chords_arr = Some []) /\
    (normalize chords_arr = Some [] <->
     Forall (fun c => c = RawOther) chords_arr) /\
    (analysis_notice chords_arr = None <->
     analyze_audio_file chords_arr <> None) /\
    analyze_audio_file (@nil (raw_item time)) = None /\
    analysis_notice (@nil (raw_item time)) = Some NoChordsWarning /\
    (forall chords,
        normalize chords_arr = Some chords ->
        chords <> [] ->
        valid_chords chords = [] ->
        exists res st,
          analyze_audio_file chords_arr = Some res /\
          chords_of res = chords /\
          statistics res = Some st /\
          chord_distribution st = []).
Proof.
  intros time chords_arr.
  pose proof (normalize_None_iff chords_arr) as Hnone.
  pose proof (normalize_nil_iff chords_arr) as Hnil.
  unfold analyze_audio_file, analysis_notice.
  destruct (normalize chords_arr) as [[| c cs] |] eqn:E.
  - split; [split; auto |]. split.
    { rewrite <- Hnone. split; discriminate. }
    split; [split; reflexivity |]. split; [exact Hnil |].
    split; [split; [discriminate | congruence] |].
    split; [reflexivity |]. split; [reflexivity |].
    intros chords [= <-] Hne. congruence.
  - split; [split; [discriminate | intros [H | H]; discriminate] |]. split.
    { rewrite <- Hnone. split; discriminate. }
    split; [split; discriminate |]. split; [exact Hnil |].
    split; [split; [discriminate | reflexivity] |].
    split; [reflexivity |]. split; [reflexivity |].
    intros chords [= <-] _ Hv. eexists. eexists.
    split; [reflexivity |]. simpl. repeat split.
    apply count_chords_nil_iff in Hv.
    unfold count_chords in Hv. simpl in Hv. exact Hv.
  - split; [split; auto |]. split.
    { rewrite <- Hnone. split; reflexivity. }
    split; [split; discriminate |]. split; [exact Hnil |].
    split; [split; [discriminate | congruence] |].
    split; [reflexivity |]. split; [reflexivity |].
    intros chords H. discriminate.
Qed.

Lemma analysis_fails_iff_error_or_no_segment_witness :
  let chords_arr : list (raw_item nat) :=
    [RawOther; RawTriple (Some 0) (Some 1) "";
     RawTriple (Some 1) (Some 2) "nan"] in
  let chords : list (chord nat) := [(0, 1, ""); (1, 2, "nan")] in
  normalize chords_arr = Some chords /\
  valid_chords chords = [] /\
  exists res st,
    analyze_audio_file chords_arr = Some res /\
    chords_of res = chords /\
    statistics res = Some st /\
    chord_distribution st = [].
Proof.
  intros chords_arr chords.
  assert (Hn : normalize chords_arr = Some chords) by reflexivity.
  assert (Hne : chords <> []) by discriminate.
  assert (Hv : valid_chords chords = []) by reflexivity.
  split; [exact Hn |]. split; [exact Hv |].
  destruct (analysis_fails_iff_error_or_no_segment nat chords_arr)
    as (_ & _ & _ & _ & _ & _ & _ & H).
  exact (H chords Hn Hne Hv).
Defined.

(** A malformed 3-tuple makes the analysis fail with the error although
    well-formed 3-tuples with valid labels are present. *)
Lemma analysis_with_malformed_tuple_fails :
  let chords_arr : list (raw_item nat) :=
    [RawTriple (Some 0) (Some 1) "C"; RawTriple None (Some 2) "G"] in
  analyze_audio_file chords_arr = None /\
  analysis_notice chords_arr = Some AnalysisError.
Proof. split; reflexivity. Qed.

(** C9.  A non-empty sequence in which every stripped label is empty or
    ["nan"] has statistics: no most common chord, count 0, no unique chord,
    empty distribution. *)
Theorem statistics_without_valid_label :
  forall (time : Type) (chords : list (chord time)),
    chords <> [] ->
    Forall (fun c => strip (snd c) = "" \/ strip (snd c) = "nan") chords ->
    _analyze_chord_statistics chords
    = Some {| total_chords := List.length chords;
              unique_chords := 0;
              most_common_chord := None;
              most_common_count := 0;
              chord_distribution := [] |}.
Proof.
  intros time chords Hne Hall.
  assert (Hd : count_chords chords = []).
  { apply count_chords_nil_iff. unfold valid_chords. clear Hne.
    induction Hall as [| c l Hc _ IH]; simpl; [reflexivity |].
    destruct Hc as [-> | ->]; simpl; assumption. }
  destruct chords as [| c chords]; [congruence |].
  unfold _analyze_chord_statistics. rewrite Hd. reflexivity.
Qed.

Lemma statistics_without_valid_label_witness :
  _analyze_chord_statistics [(0, 1, ""); (1, 2, " nan "); (2, 3, "  ")]
  = Some {| total_chords := 3;
            unique_chords := 0;
            most_common_chord := None;
            most_common_count := 0;
            chord_distribution := [] |}.
Proof.
  apply (statistics_without_valid_label nat
           [(0, 1, ""); (1, 2, " nan "); (2, 3, "  ")]).
  - discriminate.
  - repeat constructor; simpl; tauto.
Defined.

(** C7.  [most_common] is an entry of the distribution whose count is the
    greatest, and every entry before it has a strictly smaller count: among
    the labels with the greatest count it is the first in the order of the
    distribution, which is the order in which the valid labels are first
    seen.  In terms of the valid labels themselves: no label occurs more
    often than the one returned, and every label seen before its first
    occurrence occurs strictly less often. *)
Theorem most_common_is_first_maximum :
  forall (time : Type) (chords : list (chord time)) (st : ChordStatistics),
    _analyze_chord_statistics chords = Some st ->
    let d := chord_distribution st in
    let v := valid_chords chords in
    keys d = first_seen v /\
    (forall k c, In (k, c) d -> c = count_occ string_dec v k) /\
    match most_common_chord st with
    | None => d = [] /\ most_common_count st = 0
    | Some label =>
        (exists pre post,
            d = pre ++ (label, most_common_count st) :: post /\
            (forall x, In x pre -> snd x < most_common_count st) /\
            (forall x, In x d -> snd x <= most_common_count st)) /\
        most_common_count st = count_occ string_dec v label /\
        (forall k, count_occ string_dec v k <= most_common_count st) /\
        (exists p q,
            v = p ++ label :: q /\ ~ In label p /\
            (forall k, In k p ->
                       count_occ string_dec v k < most_common_count st))
    end.
Proof.
  intros time chords st Hst.
  destruct chords as [| c0 chords0]; [discriminate |].
  injection Hst as <-. cbv zeta. simpl chord_distribution.
  simpl most_common_chord. simpl most_common_count.
  set (chords := c0 :: chords0).
  pose proof (count_chords_keys chords) as Hkeys.
  pose proof (count_chords_occ chords) as Hocc.
  pose proof (count_chords_get chords) as Hget.
  split; [exact Hkeys |]. split; [exact Hocc |].
  destruct (count_chords chords) as [| x rest] eqn:Ed.
  - simpl. split; reflexivity.
  - simpl fst. simpl snd.
    destruct (max_by_count_spec rest x) as [Hmax (pre & post & E & Hpre)].
    set (m := max_by_count x rest) in *.
    assert (Hm : In m (x :: rest))
      by (rewrite E; apply in_or_app; right; now left).
    rewrite (surjective_pairing m) in Hm.
    split; [| split; [| split]].
    + exists pre, post. rewrite <- surjective_pairing.
      repeat split; assumption.
    + now apply Hocc.
    + intros k. rewrite <- Hget. unfold get_default.
      destruct (get (x :: rest) k) as [n |] eqn:Eg; [| lia].
      apply MidiGeneratorProofs.get_In in Eg.
      exact (Hmax (k, n) Eg).
    + rewrite E in Hkeys. unfold keys in Hkeys.
      rewrite map_app in Hkeys. simpl in Hkeys.
      destruct (first_seen_split _ _ _ _ (eq_sym Hkeys))
        as (p & q & Ev & Hnotin & Hp).
      exists p, q. repeat split; [exact Ev | exact Hnotin |].
      intros k Hk. apply Hp in Hk. apply In_keys_entry in Hk as [n Hn].
      assert (Hin : In (k, n) (x :: rest))
        by (rewrite E; apply in_or_app; now left).
      rewrite <- (Hocc k n Hin). exact (Hpre (k, n) Hn).
Qed.

Lemma most_common_is_first_maximum_witness :
  let chords : list (chord nat) :=
    [(0, 1, "G"); (1, 2, "C"); (2, 3, "C"); (3, 4, "G")] in
  let st := {| total_chords := 4;
               unique_chords := 2;
               most_common_chord := Some "G";
               most_common_count := 2;
               chord_distribution := [("G", 2); ("C", 2)] |} in
  _analyze_chord_statistics chords = Some st /\
  keys (chord_distribution st) = ["G"; "C"] /\
  exists pre post,
    chord_distribution st = pre ++ ("G", 2) :: post /\
    (forall x, In x pre -> snd x < 2) /\
    (forall x, In x (chord_distribution st) -> snd x <= 2).
Proof.
  intros chords st.
  assert (Hst : _analyze_chord_statistics chords = Some st) by reflexivity.
  split; [exact Hst |].
  destruct (most_common_is_first_maximum nat chords st Hst)
    as (Hk & _ & Hm & _).
  split; [exact Hk | exact Hm].
Defined.

(** The tie between ["G"] and ["C"] goes to ["G"], seen first, although
    ["C"] is the smaller string. *)
Lemma most_common_tie_is_not_alphabetical :
  exists st,
    _analyze_chord_statistics [(0, 1, "G"); (1, 2, "C")] = Some st /\
    chord_distribution st = [("G", 1); ("C", 1)] /\
    most_common_chord st = Some "G" /\ most_common_count st = 1.
Proof. eexists. repeat split. Qed.

(** C6.  For the labels C, C, G, G, G, N all six labels are valid, the
    longest streak is 3, two of the five adjacent pairs differ, so the
    change ratio is 2/5, and the most common chord is G with count 3. *)
Theorem six_label_example :
  forall (time : Type) (chords : list (chord time)),
    map snd chords = ["C"; "C"; "G"; "G"; "G"; "N"] ->
    let v := valid_chords chords in
    v = ["C"; "C"; "G"; "G"; "G"; "N"] /\
    longest_streak v = Some 3 /\
    changes v = 2 /\
    (change_ratio v == 2 # 5)%Q /\
    exists st,
      _analyze_chord_statistics chords = Some st /\
      most_common_chord st = Some "G" /\ most_common_count st = 3.
Proof.
  intros time chords H.
  do 6 (destruct chords as [| [[? ?] ?] chords]; [discriminate |]).
  destruct chords; [| discriminate].
  simpl in H. injection H as -> -> -> -> -> ->.
  cbv zeta. repeat split. eexists. repeat split.
Qed.

Lemma six_label_example_witness :
  let chords : list (chord nat) :=
    [(0, 2, "C"); (2, 4, "C"); (4, 6, "G"); (6, 8, "G"); (8, 10, "G");
     (10, 12, "N")] in
  map snd chords = ["C"; "C"; "G"; "G"; "G"; "N"] /\
  longest_streak (valid_chords chords) = Some 3 /\
  (change_ratio (valid_chords chords) == 2 # 5)%Q.
Proof.
  intros chords.
  assert (H : map snd chords = ["C"; "C"; "G"; "G"; "G"; "N"])
    by reflexivity.
  split; [exact H |].
  destruct (six_label_example nat chords H) as (_ & Hs & _ & Hr & _).
  split; [exact Hs | exact Hr].
Defined.

End StatisticsClaims.

(** * Properties of the string primitives *)

Module PyStrProofs.
Import PyStr.

(** *** Stripping keeps the characters that are not white space *)

Lemma contains_lstrip (c : ascii) (s : string) :
  contains c s = true -> is_space c = true \/ contains c (lstrip s) = true.
Proof.
  induction s as [| d r IH]; [discriminate |].
  change (contains c (String d r)) with (Ascii.eqb c d || contains c r)%bool.
  change (lstrip (String d r))
    with (if is_space d then lstrip r else String d r).
  destruct (is_space d) eqn:Ed.
  - destruct (Ascii.eqb_spec c d) as [-> | _]; [now left | exact IH].
  - intros H. right. exact H.
Qed.

Lemma contains_rstrip (c : ascii) (s : string) :
  contains c s = true -> is_space c = true \/ contains c (rstrip s) = true.
Proof.
  induction s as [| d r IH]; [discriminate |].
  change (contains c (String d r)) with (Ascii.eqb c d || contains c r)%bool.
  change (rstrip (String d r))
    with (match rstrip r with
          | EmptyString =>
              if is_space d then EmptyString else String d EmptyString
          | r' => String d r'
          end).
  destruct (Ascii.eqb_spec c d) as [-> | Hne]; simpl orb.
  - intros _. destruct (rstrip r) as [| d' r'].
    + destruct (is_space d) eqn:Ed; [now left | right].
      simpl. now rewrite Ascii.eqb_refl.
    + right. simpl. now rewrite Ascii.eqb_refl.
  - intros H. destruct (IH H) as [Hs | Hc]; [now left |]. right.
    destruct (rstrip r) as [| d' r']; [discriminate |].
    change (Ascii.eqb c d || contains c (String d' r') = true)%bool.
    rewrite Hc. apply orb_true_r.
Qed.

Lemma contains_strip (c : ascii) (s : string) :
  contains c s = true -> is_space c = true \/ contains c (strip s) = true.
Proof.
  intros H. unfold strip.
  destruct (contains_lstrip c s H) as [Hs | Hl]; [now left |].
  now apply contains_rstrip.
Qed.

(** *** Stripping removes characters only *)

Lemma lstrip_contains (c : ascii) (s : string) :
  contains c (lstrip s) = true -> contains c s = true.
Proof.
  induction s as [| d r IH]; [discriminate |].
  change (lstrip (String d r))
    with (if is_space d then lstrip r else String d r).
  destruct (is_space d); [| auto]. intros H.
  change (Ascii.eqb c d || contains c r = true)%bool.
  rewrite (IH H). apply orb_true_r.
Qed.

Lemma rstrip_contains (c : ascii) (s : string) :
  contains c (rstrip s) = true -> contains c s = true.
Proof.
  induction s as [| d r IH]; [discriminate |].
  change (rstrip (String d r))
    with (match rstrip r with
          | EmptyString =>
              if is_space d then EmptyString else String d EmptyString
          | r' => String d r'
          end).
  change (contains c (String d r)) with (Ascii.eqb c d || contains c r)%bool.
  destruct (rstrip r) as [| d' r'].
  - destruct (is_space d); [discriminate |].
    simpl. rewrite orb_false_r. intros ->. reflexivity.
  - change (contains c (String d (String d' r')))
      with (Ascii.eqb c d || contains c (String d' r'))%bool.
    intros H. apply orb_true_iff in H as [-> | H]; [reflexivity |].
    rewrite (IH H). apply orb_true_r.
Qed.

Lemma strip_contains (c : ascii) (s : string) :
  contains c (strip s) = true -> contains c s = true.
Proof.
  unfold strip. intros H. apply lstrip_contains. now apply rstrip_contains.
Qed.

(** *** Stripping twice *)

Lemma lstrip_idem (s : string) : lstrip (lstrip s) = lstrip s.
Proof.
  induction s as [| d r IH]; [reflexivity |].
  change (lstrip (String d r))
    with (if is_space d then lstrip r else String d r).
  destruct (is_space d) eqn:Ed; [exact IH |].
  simpl. now rewrite Ed.
Qed.

Lemma rstrip_idem (s : string) : rstrip (rstrip s) = rstrip s.
Proof.
  induction s as [| d r IH]; [reflexivity |].
  change (rstrip (String d r))
    with (match rstrip r with
          | EmptyString =>
              if is_space d then EmptyString else String d EmptyString
          | r' => String d r'
          end).
  destruct (rstrip r) as [| d' r'] eqn:Er.
  - destruct (is_space d) eqn:Ed; [reflexivity |]. simpl. now rewrite Ed.
  - change (rstrip (String d (String d' r')))
      with (match rstrip (String d' r') with
            | EmptyString =>
                if is_space d then EmptyString else String d EmptyString
            | r'' => String d r''
            end).
    now rewrite IH.
Qed.

Lemma lstrip_rstrip (s : string) : lstrip (rstrip s) = rstrip (lstrip s).
Proof.
  induction s as [| d r IH]; [reflexivity |].
  change (rstrip (String d r))
    with (match rstrip r with
          | EmptyString =>
              if is_space d then EmptyString else String d EmptyString
          | r' => String d r'
          end).
  change (lstrip (String d r))
    with (if is_space d then lstrip r else String d r).
  destruct (is_space d) eqn:Ed.
  - rewrite <- IH. destruct (rstrip r) as [| d' r']; [reflexivity |].
    change (lstrip (String d (String d' r')))
      with (if is_space d then lstrip (String d' r')
            else String d (String d' r')).
    now rewrite Ed.
  - change (rstrip (String d r))
      with (match rstrip r with
            | EmptyString =>
                if is_space d then EmptyString else String d EmptyString
            | r' => String d r'
            end).
    rewrite Ed. destruct (rstrip r) as [| d' r']; simpl; now rewrite Ed.
Qed.

Lemma strip_idem (s : string) : strip (strip s) = strip s.
Proof.
  unfold strip.
  now rewrite <- lstrip_rstrip, rstrip_idem, lstrip_rstrip, lstrip_idem.
Qed.

(** *** Upper-casing *)

Lemma is_space_upper_char (c : ascii) : is_space (upper_char c) = is_space c.
Proof. destruct c as [[] [] [] [] [] [] [] []]; reflexivity. Qed.

Lemma upper_char_idem (c : ascii) : upper_char (upper_char c) = upper_char c.
Proof. destruct c as [[] [] [] [] [] [] [] []]; reflexivity. Qed.

Lemma colon_upper_char (c : ascii) :
  Ascii.eqb ":" (upper_char c) = Ascii.eqb ":" c.
Proof. destruct c as [[] [] [] [] [] [] [] []]; reflexivity. Qed.

Lemma upper_idem (s : string) : upper (upper s) = upper s.
Proof.
  induction s as [| d r IH]; [reflexivity |].
  simpl. now rewrite upper_char_idem, IH.
Qed.

Lemma contains_colon_upper (s : string) :
  contains ":" (upper s) = contains ":" s.
Proof.
  induction s as [| d r IH]; [reflexivity |].
  change (Ascii.eqb ":" (upper_char d) || contains ":" (upper r)
          = Ascii.eqb ":" d || contains ":" r)%bool.
  now rewrite colon_upper_char, IH.
Qed.

Lemma lstrip_upper (s : string) : lstrip (upper s) = upper (lstrip s).
Proof.
  induction s as [| d r IH]; [reflexivity |].
  change (lstrip (upper (String d r)))
    with (if is_space (upper_char d) then lstrip (upper r)
          else String (upper_char d) (upper r)).
  change (lstrip (String d r))
    with (if is_space d then lstrip r else String d r).
  rewrite is_space_upper_char. now destruct (is_space d).
Qed.

Lemma rstrip_upper (s : string) : rstrip (upper s) = upper (rstrip s).
Proof.
  induction s as [| d r IH]; [reflexivity |].
  change (rstrip (upper (String d r)))
    with (match rstrip (upper r) with
          | EmptyString =>
              if is_space (upper_char d) then EmptyString
              else String (upper_char d) EmptyString
          | r' => String (upper_char d) r'
          end).
  change (rstrip (String d r))
    with (match rstrip r with
          | EmptyString =>
              if is_space d then EmptyString else String d EmptyString
          | r' => String d r'
          end).
  rewrite IH, is_space_upper_char.
  destruct (rstrip r) as [| d' r']; simpl; [now destruct (is_space d) |].
  reflexivity.
Qed.

Lemma strip_upper (s : string) : strip (upper s) = upper (strip s).
Proof. unfold strip. now rewrite lstrip_upper, rstrip_upper. Qed.

(** *** Splitting at the first colon *)

Lemma contains_append (c : ascii) (a b : string) :
  contains c (a ++ b) = (contains c a || contains c b)%bool.
Proof.
  induction a as [| d r IH]; [reflexivity |].
  change (Ascii.eqb c d || contains c (r ++ b)
          = Ascii.eqb c d || contains c r || contains c b)%bool.
  now rewrite IH, orb_assoc.
Qed.

Lemma split1_append (c : ascii) (a b : string) :
  contains c a = false -> split1 c (a ++ String c b) = (a, b).
Proof.
  induction a as [| d r IH].
  - intros _. simpl. now rewrite Ascii.eqb_refl.
  - change (contains c (String d r))
      with (Ascii.eqb c d || contains c r)%bool.
    intros H. apply orb_false_iff in H as [Hd Hr].
    change (split1 c (String d r ++ String c b))
      with (if Ascii.eqb c d then (EmptyString, (r ++ String c b)%string)
            else let '(x, y) := split1 c (r ++ String c b) in
                 (String d x, y)).
    now rewrite Hd, (IH Hr).
Qed.

(** The text before the first occurrence holds no occurrence, and the two
    parts give the string back. *)
Lemma split1_spec (c : ascii) (s : string) :
  contains c s = true ->
  contains c (fst (split1 c s)) = false /\
  s = (fst (split1 c s) ++ String c (snd (split1 c s)))%string.
Proof.
  induction s as [| d r IH]; [discriminate |].
  change (contains c (String d r)) with (Ascii.eqb c d || contains c r)%bool.
  change (split1 c (String d r))
    with (if Ascii.eqb c d then (EmptyString, r)
          else let '(x, y) := split1 c r in (String d x, y)).
  destruct (Ascii.eqb_spec c d) as [-> | Hne]; simpl orb.
  - intros _. split; reflexivity.
  - intros H. destruct (IH H) as [Hc Hs].
    destruct (split1 c r) as [x y]. simpl in *. split.
    + rewrite Hc. destruct (Ascii.eqb_spec c d); [contradiction | reflexivity].
    + now rewrite <- Hs.
Qed.

End PyStrProofs.

(** * Further properties of the synthesis *)

Module SynthesisExtras.
Import PyStr PyDict MidiGenerator MidiGeneratorProofs Segments App Notions.
Import ChordAnalyzer.

Local Open Scope Z_scope.

Lemma interval_values_length_le (ivs : list Z) :
  In ivs (values CHORD_TYPE_MAP) -> (List.length ivs <= 4)%nat.
Proof.
  simpl. intros H.
  repeat (destruct H as [<- | H]; [simpl; lia |]). contradiction.
Qed.

Lemma sounding_resolves (chord : string) :
  sounding chord = true ->
  chord <> "" /\ chord <> "N" /\
  exists r ivs, resolve_chord chord = Some (r, ivs).
Proof.
  unfold sounding. intros H.
  apply andb_true_iff in H as [H Hres]. apply andb_true_iff in H as [Ht HN].
  repeat split.
  - intros ->. discriminate.
  - intros ->. discriminate.
  - destruct (resolve_chord chord) as [[r ivs] |]; [| discriminate].
    now exists r, ivs.
Qed.

Lemma sounding_false (chord : string) :
  sounding chord = false ->
  chord = "" \/ chord = "N" \/ resolve_chord chord = None.
Proof.
  unfold sounding. intros H.
  destruct chord as [| c chord]; [now left |].
  destruct (String.eqb_spec (String c chord) "N") as [E | _];
    [right; now left |].
  destruct (resolve_chord (String c chord)); [discriminate |].
  right. now right.
Qed.

Lemma segment_notes_sounding {time : Type} (s e : time) (chord : string) :
  segment_notes (s, e, chord) =
  if sounding chord
  then match resolve_chord chord with
       | Some (r, ivs) => map (fun i => mkNote 80 (r + i) s e) ivs
       | None => []
       end
  else [].
Proof.
  unfold segment_notes, sounding.
  destruct (truthy chord); simpl; [| reflexivity].
  destruct (String.eqb chord "N"); simpl; [reflexivity |].
  destruct (resolve_chord chord) as [[r ivs] |]; [| reflexivity].
  now rewrite map_map.
Qed.

Lemma segment_notes_count {time : Type} (seg : segment time) :
  if sounding (snd seg)
  then (3 <= List.length (segment_notes seg) <= 4)%nat
  else segment_notes seg = [].
Proof.
  destruct seg as [[s e] chord]. simpl snd.
  rewrite segment_notes_sounding.
  destruct (sounding chord) eqn:E; [| reflexivity].
  apply sounding_resolves in E as (_ & _ & r & ivs & Hres). rewrite Hres.
  rewrite length_map. apply resolve_chord_tables in Hres as [_ Hivs].
  split; [now apply interval_values_length |
          now apply interval_values_length_le].
Qed.

(** X1.  [chords_to_midi] warns and returns nothing exactly when no segment
    sounds, that is when every chord name is empty, ["N"] or has a root
    outside the table; the number of segments plays no role. *)
Theorem insufficient_iff_nothing_sounds :
  forall (time : Type) (segs : list (segment time))
         (filename : option string) (tempo : Z),
    chords_to_midi segs filename tempo = InsufficientNotes
    <-> Forall (fun seg => snd seg = "" \/ snd seg = "N" \/
                           resolve_chord (snd seg) = None) segs.
Proof.
  intros time segs filename tempo.
  rewrite chords_to_midi_insufficient_iff, collect_notes_flat_map.
  induction segs as [| seg segs IH]; simpl.
  - split; [constructor | reflexivity].
  - split.
    + intros H. apply app_eq_nil in H as [Hseg Hrest].
      constructor; [| now apply IH].
      pose proof (segment_notes_count seg) as Hc.
      destruct (sounding (snd seg)) eqn:E.
      * rewrite Hseg in Hc. simpl in Hc. lia.
      * now apply sounding_false.
    + intros H. inversion H as [| ? ? Hseg Hrest]; subst.
      apply IH in Hrest. rewrite Hrest, app_nil_r.
      pose proof (segment_notes_count seg) as Hc.
      destruct (sounding (snd seg)) eqn:E; [| exact Hc].
      apply sounding_resolves in E as (Hne & HN & r & ivs & Hres).
      destruct Hseg as [? | [? | ?]]; congruence.
Qed.

(** X2.  Each sounding segment contributes three or four notes and every
    other segment none, so the number of notes lies between three and four
    times the number of sounding segments. *)
Theorem note_count_bounds :
  forall (time : Type) (segs : list (segment time)),
    let k := List.length (filter (fun seg => sounding (snd seg)) segs) in
    (3 * k <= List.length (collect_notes segs) <= 4 * k)%nat.
Proof.
  intros time segs. cbv zeta. rewrite collect_notes_flat_map.
  induction segs as [| seg segs IH]; simpl; [lia |].
  rewrite length_app. pose proof (segment_notes_count seg) as Hc.
  destruct (sounding (snd seg)); simpl.
  - lia.
  - rewrite Hc. simpl. lia.
Qed.

Lemma collect_notes_In_iff {time : Type} (segs : list (segment time))
    (n : Note time) :
  In n (collect_notes segs) <->
  exists s e chord r ivs i,
    In (s, e, chord) segs /\ sounding chord = true /\
    resolve_chord chord = Some (r, ivs) /\ In i ivs /\
    n = mkNote 80 (r + i) s e.
Proof.
  rewrite collect_notes_flat_map, in_flat_map. split.
  - intros [[[s e] chord] [Hin Hn]]. rewrite segment_notes_sounding in Hn.
    destruct (sounding chord) eqn:E; [| contradiction].
    destruct (resolve_chord chord) as [[r ivs] |] eqn:Hres;
      [| contradiction].
    apply in_map_iff in Hn as [i [<- Hi]].
    now exists s, e, chord, r, ivs, i.
  - intros (s & e & chord & r & ivs & i & Hin & E & Hres & Hi & ->).
    exists (s, e, chord). split; [exact Hin |].
    rewrite segment_notes_sounding, E, Hres.
    apply in_map_iff. now exists i.
Qed.

(** X3.  The notes of a sequence are exactly the notes
    [(80, root + i, start, end)] for the sounding segments
    [(start, end, chord)] of the sequence and the intervals [i] of their
    chord: every note spans the window of the segment it comes from, and no
    interval of a sounding segment is left out. *)
Theorem notes_characterised :
  forall (time : Type) (segs : list (segment time)) (n : Note time),
    In n (collect_notes segs) <->
    exists s e chord r ivs i,
      In (s, e, chord) segs /\ sounding chord = true /\
      resolve_chord chord = Some (r, ivs) /\ In i ivs /\
      n = mkNote 80 (r + i) s e.
Proof. intros time segs n. apply collect_notes_In_iff. Qed.

(** X4.  Synthesis works segment by segment: the notes of a concatenation
    are the notes of the first sequence followed by those of the second, so
    the notes keep the order of the segments. *)
Theorem notes_of_concatenation :
  forall (time : Type) (segs1 segs2 : list (segment time)),
    collect_notes (segs1 ++ segs2)
    = collect_notes segs1 ++ collect_notes segs2.
Proof.
  intros time segs1 segs2. rewrite !collect_notes_flat_map.
  apply flat_map_app.
Qed.

(** *** The pre-filter of the home page *)

Lemma invalid_label_cases (label : string) :
  is_valid_label (strip label) = false ->
  strip label = "" \/ strip label = "nan".
Proof.
  unfold is_valid_label. destruct (strip label) as [| c r]; [now left |].
  destruct (String.eqb_spec (String c r) "nan") as [E | _];
    [now right | discriminate].
Qed.

Lemma parse_chord_no_colon (chord : string) :
  contains ":" chord = false ->
  parse_chord chord = (upper (strip chord), "").
Proof. unfold parse_chord. now intros ->. Qed.

Lemma parse_chord_colon (a b : string) :
  contains ":" a = false ->
  parse_chord (a ++ String ":" b) = (upper (strip a), strip b).
Proof.
  intros Ha. unfold parse_chord.
  rewrite PyStrProofs.contains_append, Ha. simpl contains.
  rewrite PyStrProofs.split1_append by exact Ha. reflexivity.
Qed.

(** A label that the analysis treats as invalid never sounds. *)
Lemma invalid_label_silent (label : string) :
  is_valid_label (strip label) = false -> sounding label = false.
Proof.
  intros H. apply invalid_label_cases in H.
  assert (Hc : contains ":" label = false).
  { destruct (contains ":" label) eqn:E; [| reflexivity].
    apply PyStrProofs.contains_strip in E as [E | E]; [discriminate |].
    destruct H as [H | H]; rewrite H in E; discriminate. }
  unfold sounding, resolve_chord. rewrite (parse_chord_no_colon _ Hc).
  destruct H as [H | H]; rewrite H; simpl; apply andb_false_r.
Qed.

Lemma collect_notes_valid_segments {time : Type}
    (chords : list (chord time)) :
  collect_notes (valid_segments chords) = collect_notes chords.
Proof.
  rewrite !collect_notes_flat_map. unfold valid_segments.
  induction chords as [| [[s e] label] chords IH]; simpl; [reflexivity |].
  destruct (is_valid_label (strip label)) eqn:E; simpl.
  - now rewrite IH.
  - rewrite IH. pose proof (segment_notes_sounding s e label) as Hs.
    rewrite (invalid_label_silent _ E) in Hs.
    unfold segment_notes in Hs. now rewrite Hs.
Qed.

(** X5.  The filter the home page applies before synthesis changes nothing:
    the segments it drops (stripped label empty or ["nan"]) would not have
    produced a note, so the outcome is that of [chords_to_midi] on the
    unfiltered sequence; and when the page offers no MIDI button at all,
    synthesis would have been refused. *)
Theorem prefilter_is_transparent :
  forall (time : Type) (chords : list (chord time))
         (filename : option string) (tempo : Z),
    chords_to_midi (valid_segments chords) filename tempo
    = chords_to_midi chords filename tempo /\
    match midi_of_analysis chords with
    | Some result => result = chords_to_midi chords None 100
    | None => chords_to_midi chords filename tempo = InsufficientNotes
    end.
Proof.
  intros time chords filename tempo.
  assert (H : forall f t, chords_to_midi (valid_segments chords) f t
                          = chords_to_midi chords f t).
  { intros f t. unfold chords_to_midi.
    now rewrite collect_notes_valid_segments. }
  split; [apply H |]. unfold midi_of_analysis.
  destruct (valid_segments chords) as [| c cs] eqn:E.
  - rewrite <- H. reflexivity.
  - apply H.
Qed.

(** *** Roots *)

(** X6.  Whatever the chord name, a root that is found is one of the twelve
    keys written without a flat: the keys [Db], [Eb], [Gb], [Ab] and [Bb] of
    the table are never the result of a lookup, because the root is
    upper-cased first. *)
Theorem resolved_root_is_sharp :
  forall (chord : string) (r : Z) (ivs : list Z),
    resolve_chord chord = Some (r, ivs) ->
    In (fst (parse_chord chord)) sharp_roots /\
    get CHORD_ROOT_MAP (fst (parse_chord chord)) = Some r /\
    ivs = intervals_of (snd (parse_chord chord)).
Proof.
  intros chord r ivs. unfold resolve_chord.
  pose proof (parse_chord_root_no_flat chord) as Hb.
  destruct (parse_chord chord) as [root ctype]. simpl in Hb. simpl fst.
  simpl snd.
  destruct (get CHORD_ROOT_MAP root) as [root_note |] eqn:E; [| discriminate].
  intros [= <- <-]. repeat split.
  apply get_In in E. simpl in E. unfold sharp_roots.
  repeat (destruct E as [[= <- <-] | E];
          [first [discriminate Hb | simpl; tauto] |]).
  contradiction.
Qed.

Lemma resolved_root_is_sharp_witness :
  In (fst (parse_chord " f# : dim ")) sharp_roots /\
  get CHORD_ROOT_MAP (fst (parse_chord " f# : dim ")) = Some 66 /\
  [0; 3; 6] = intervals_of (snd (parse_chord " f# : dim ")).
Proof.
  apply (resolved_root_is_sharp " f# : dim " 66 [0; 3; 6]). reflexivity.
Defined.

(** X7.  Table round trip: for each of the twelve roots without a flat and
    each quality of [CHORD_TYPE_MAP], the name [root:quality] resolves to
    the root's pitch and the quality's intervals, and the bare root resolves
    to its pitch with the major triad. *)
Theorem table_round_trip :
  forall (root quality : string) (r : Z) (ivs : list Z),
    In root sharp_roots ->
    get CHORD_ROOT_MAP root = Some r ->
    get CHORD_TYPE_MAP quality = Some ivs ->
    resolve_chord (root ++ ":" ++ quality) = Some (r, ivs) /\
    resolve_chord root = Some (r, [0; 4; 7]).
Proof.
  intros root quality r ivs Hroot Hr Hq.
  apply get_In in Hq. simpl in Hq. unfold sharp_roots in Hroot.
  simpl in Hroot.
  repeat (destruct Hroot as [<- | Hroot];
          [injection Hr as <-;
           repeat (destruct Hq as [[= <- <-] | Hq];
                   [split; reflexivity |]);
           contradiction |]).
  contradiction.
Qed.

Lemma table_round_trip_witness :
  resolve_chord ("A#" ++ ":" ++ "m7") = Some (70, [0; 3; 7; 10]) /\
  resolve_chord "A#" = Some (70, [0; 4; 7]).
Proof.
  apply (table_round_trip "A#" "m7" 70 [0; 3; 7; 10]).
  - simpl. tauto.
  - reflexivity.
  - reflexivity.
Defined.

(** *** Normal form of a chord name *)

Lemma parse_chord_root_no_colon (chord : string) :
  contains ":" (fst (parse_chord chord)) = false.
Proof.
  unfold parse_chord. destruct (contains ":" chord) eqn:E.
  - destruct (PyStrProofs.split1_spec ":" chord E) as [Hc _].
    destruct (split1 ":" chord) as [a b]. simpl in *.
    rewrite PyStrProofs.contains_colon_upper.
    destruct (contains ":" (strip a)) eqn:Es; [| reflexivity].
    apply PyStrProofs.strip_contains in Es. congruence.
  - simpl. rewrite PyStrProofs.contains_colon_upper.
    destruct (contains ":" (strip chord)) eqn:Es; [| reflexivity].
    apply PyStrProofs.strip_contains in Es. congruence.
Qed.

Lemma parse_chord_normal (chord : string) :
  upper (strip (fst (parse_chord chord))) = fst (parse_chord chord) /\
  strip (snd (parse_chord chord)) = snd (parse_chord chord).
Proof.
  unfold parse_chord.
  destruct (if contains ":" chord then split1 ":" chord
            else (chord, EmptyString)) as [a b].
  simpl. split.
  - now rewrite PyStrProofs.strip_upper, PyStrProofs.strip_idem,
      PyStrProofs.upper_idem.
  - apply PyStrProofs.strip_idem.
Qed.

(** X8.  [parse_chord] returns a normal form: joining the root and the
    quality it returns with a colon and parsing again gives the same root
    and quality, hence the same pitches.  So the case of the root and the
    white space around root and quality never matter. *)
Theorem parse_chord_round_trip :
  forall chord : string,
    let root := fst (parse_chord chord) in
    let ctype := snd (parse_chord chord) in
    parse_chord (root ++ ":" ++ ctype) = (root, ctype) /\
    resolve_chord (root ++ ":" ++ ctype) = resolve_chord chord.
Proof.
  intros chord root ctype.
  assert (H : parse_chord (root ++ ":" ++ ctype) = (root, ctype)).
  { change (root ++ ":" ++ ctype)%string with (root ++ String ":" ctype)%string.
    rewrite parse_chord_colon by apply parse_chord_root_no_colon.
    destruct (parse_chord_normal chord) as [Hr Hc].
    unfold root, ctype. now rewrite Hr, Hc. }
  split; [exact H |]. unfold resolve_chord. rewrite H.
  unfold root, ctype. now destruct (parse_chord chord).
Qed.

(** *** Segments of equal length *)

Lemma segments_from_nth {time : Type} (scale : nat -> time)
    (chords : list string) :
  forall j i : nat,
    nth_error (segments_from scale j chords) i
    = option_map (fun chord => (scale (j + i)%nat, scale (j + i + 1)%nat, chord))
        (nth_error chords i).
Proof.
  induction chords as [| c rest IH]; intros j i.
  - now destruct i.
  - destruct i as [| i]; simpl.
    + now rewrite Nat.add_0_r.
    + rewrite IH. now replace (S j + i)%nat with (j + S i)%nat by lia.
Qed.

Lemma segments_from_labels {time : Type} (scale : nat -> time)
    (chords : list string) :
  forall j : nat, map snd (segments_from scale j chords) = chords.
Proof.
  induction chords as [| c rest IH]; intros j; simpl; [reflexivity |].
  now rewrite IH.
Qed.

(** X9.  [chords_list_to_segments] gives the [i]-th chord name the window
    from [i * duration] to [(i + 1) * duration] and nothing else: the
    segments carry the names in order, there are as many segments as names,
    and each segment ends where the next one starts. *)
Theorem equal_length_segments :
  forall (time : Type) (scale : nat -> time) (chords : list string),
    let segs := chords_list_to_segments scale chords in
    (forall i : nat,
        nth_error segs i
        = option_map (fun chord => (scale i, scale (i + 1)%nat, chord))
            (nth_error chords i)) /\
    map snd segs = chords /\
    List.length segs = List.length chords /\
    (forall (i : nat) (seg next : segment time),
        nth_error segs i = Some seg ->
        nth_error segs (i + 1) = Some next ->
        snd (fst seg) = fst (fst next)).
Proof.
  intros time scale chords segs.
  assert (Hnth : forall i : nat,
             nth_error segs i
             = option_map (fun chord => (scale i, scale (i + 1)%nat, chord))
                 (nth_error chords i)).
  { intros i. unfold segs, chords_list_to_segments.
    now rewrite segments_from_nth. }
  split; [exact Hnth |]. split; [| split].
  - apply segments_from_labels.
  - unfold segs, chords_list_to_segments.
    rewrite <- (segments_from_labels scale chords 0) at 2.
    now rewrite length_map.
  - intros i seg next Hi Hn. rewrite Hnth in Hi, Hn.
    destruct (nth_error chords i); [| discriminate].
    destruct (nth_error chords (i + 1)); [| discriminate].
    simpl in Hi, Hn. injection Hi as <-. injection Hn as <-. reflexivity.
Qed.

(** X10.  Synthesis after [chords_list_to_segments]: the notes are exactly
    the notes [(80, root + iv, i * duration, (i + 1) * duration)] for the
    positions [i] of the sounding chord names and the intervals [iv] of the
    chord at that position; a name that does not sound leaves its window
    silent without shifting the others. *)
Theorem notes_of_chord_names :
  forall (time : Type) (scale : nat -> time) (chords : list string)
         (n : Note time),
    In n (collect_notes (chords_list_to_segments scale chords)) <->
    exists i chord r ivs iv,
      nth_error chords i = Some chord /\ sounding chord = true /\
      resolve_chord chord = Some (r, ivs) /\ In iv ivs /\
      n = mkNote 80 (r + iv) (scale i) (scale (i + 1)%nat).
Proof.
  intros time scale chords n. rewrite collect_notes_In_iff.
  unfold chords_list_to_segments. split.
  - intros (s & e & chord & r & ivs & iv & Hin & Hs & Hres & Hiv & ->).
    apply In_nth_error in Hin as [i Hi].
    pose proof (eq_trans (eq_sym Hi) (segments_from_nth scale chords 0 i))
      as Hn.
    destruct (nth_error chords i) as [c |] eqn:Ec; [| discriminate].
    simpl in Hn. injection Hn as -> -> ->.
    now exists i, c, r, ivs, iv.
  - intros (i & chord & r & ivs & iv & Hi & Hs & Hres & Hiv & ->).
    exists (scale i), (scale (i + 1)%nat), chord, r, ivs, iv.
    repeat split; try assumption.
    apply nth_error_In with (n := i).
    exact (eq_trans (segments_from_nth scale chords 0 i)
             (f_equal (option_map _) Hi)).
Qed.

End SynthesisExtras.

(** * Further properties of the statistics *)

Module StatisticsExtras.
Import PyStr PyDict ChordAnalyzer AdvancedAnalysis Reference.
Import ChordAnalyzerProofs Plots Features.

(** *** Distinct labels *)

Lemma In_first_seen (l : list string) (k : string) :
  In k (first_seen l) <-> In k l.
Proof.
  induction l as [| x r IH]; simpl; [tauto |].
  rewrite filter_In, IH. split.
  - intros [-> | [H _]]; auto.
  - intros [-> | H]; [now left |].
    destruct (string_dec x k) as [-> | Hne]; [now left | right].
    split; [exact H |]. apply negb_true_iff. apply String.eqb_neq. congruence.
Qed.

Lemma NoDup_first_seen (l : list string) : NoDup (first_seen l).
Proof.
  induction l as [| x r IH]; simpl; constructor.
  - rewrite filter_In. intros [_ H]. now rewrite String.eqb_refl in H.
  - now apply NoDup_filter.
Qed.

Lemma first_seen_length (l : list string) :
  List.length (first_seen l) = distinct_count l.
Proof.
  unfold distinct_count. apply Permutation_length. apply NoDup_Permutation.
  - apply NoDup_first_seen.
  - apply NoDup_nodup.
  - intros k. now rewrite In_first_seen, nodup_In.
Qed.

Lemma count_occ_le_length (l : list string) (k : string) :
  count_occ string_dec l k <= List.length l.
Proof.
  induction l as [| x r IH]; simpl; [lia |].
  destruct (string_dec x k); lia.
Qed.

Lemma list_sum_le_max (l : list nat) (m : nat) :
  (forall v, In v l -> v <= m) -> list_sum l <= List.length l * m.
Proof.
  induction l as [| v l IH]; simpl; intros H; [lia |].
  specialize (IH (fun w Hw => H w (or_intror Hw))).
  specialize (H v (or_introl eq_refl)). lia.
Qed.

Lemma valid_chords_app {time : Type} (c1 c2 : list (chord time)) :
  valid_chords (c1 ++ c2) = valid_chords c1 ++ valid_chords c2.
Proof. unfold valid_chords. now rewrite map_app, filter_app. Qed.

Lemma valid_chords_In {time : Type} (chords : list (chord time))
    (k : string) :
  In k (valid_chords chords) ->
  is_valid_label k = true /\ strip k = k.
Proof.
  unfold valid_chords. rewrite filter_In, in_map_iff.
  intros [[c [<- _]] Hv]. split; [exact Hv | apply PyStrProofs.strip_idem].
Qed.

Lemma statistics_fields {time : Type} (chords : list (chord time))
    (st : ChordStatistics) :
  _analyze_chord_statistics chords = Some st ->
  chords <> [] /\
  total_chords st = List.length chords /\
  unique_chords st = List.length (count_chords chords) /\
  chord_distribution st = count_chords chords /\
  match count_chords chords with
  | [] => most_common_chord st = None /\ most_common_count st = 0
  | x :: rest =>
      most_common_chord st = Some (fst (max_by_count x rest)) /\
      most_common_count st = snd (max_by_count x rest)
  end.
Proof.
  destruct chords as [| c chords]; [discriminate |].
  intros [= <-]. simpl. split; [discriminate |]. repeat split.
  destruct (count_chords (c :: chords)); split; reflexivity.
Qed.

(** X11.  [unique_chords] is the number of distinct valid labels, the
    [len(set(valid_chords))] of the analysis page, and it is at most the
    number of valid segments, which is at most [total_chords]. *)
Theorem unique_chords_is_distinct_count :
  forall (time : Type) (chords : list (chord time)) (st : ChordStatistics),
    _analyze_chord_statistics chords = Some st ->
    unique_chords st = distinct_count (valid_chords chords) /\
    unique_chords st <= List.length (valid_chords chords) /\
    List.length (valid_chords chords) <= total_chords st.
Proof.
  intros time chords st Hst.
  destruct (statistics_fields chords st Hst) as (_ & Ht & Hu & _).
  assert (Hd : List.length (count_chords chords)
               = distinct_count (valid_chords chords)).
  { rewrite <- first_seen_length, <- count_chords_keys. unfold keys.
    now rewrite length_map. }
  rewrite Hu, Ht, Hd. repeat split.
  - unfold distinct_count.
    apply (NoDup_incl_length (l := nodup string_dec (valid_chords chords))
             (l' := valid_chords chords)); [apply NoDup_nodup |].
    intros k Hk. now apply nodup_In in Hk.
  - unfold valid_chords.
    rewrite <- (length_map (fun c : chord time => strip (snd c)) chords).
    apply filter_length_le.
Qed.

Lemma unique_chords_is_distinct_count_witness :
  let chords : list (chord nat) :=
    [(0, 1, "C"); (1, 2, " C "); (2, 3, "nan"); (3, 4, "G")] in
  exists st,
    _analyze_chord_statistics chords = Some st /\
    unique_chords st = 2 /\ distinct_count (valid_chords chords) = 2.
Proof.
  intros chords.
  assert (Hst : _analyze_chord_statistics chords
                = Some {| total_chords := 4; unique_chords := 2;
                          most_common_chord := Some "C";
                          most_common_count := 2;
                          chord_distribution := [("C", 2); ("G", 1)] |})
    by reflexivity.
  eexists. split; [exact Hst |].
  destruct (unique_chords_is_distinct_count nat chords _ Hst) as (Hu & _).
  split; [reflexivity |]. rewrite <- Hu. reflexivity.
Defined.

(** X12.  When at least one label is valid, the most common chord is one of
    the valid labels, its count is its number of occurrences, at least 1 and
    at most the number of valid segments, and the valid segments number at
    most [unique_chords] times that count. *)
Theorem most_common_count_bounds :
  forall (time : Type) (chords : list (chord time)) (st : ChordStatistics),
    _analyze_chord_statistics chords = Some st ->
    valid_chords chords <> [] ->
    exists label,
      most_common_chord st = Some label /\
      In label (valid_chords chords) /\
      most_common_count st
      = count_occ string_dec (valid_chords chords) label /\
      1 <= most_common_count st <= List.length (valid_chords chords) /\
      List.length (valid_chords chords)
      <= unique_chords st * most_common_count st /\
      most_common_count st <= total_chords st.
Proof.
  intros time chords st Hst Hv.
  destruct (statistics_fields chords st Hst) as (_ & Ht & Hu & _ & Hm).
  pose proof (count_chords_keys chords) as Hkeys.
  pose proof (count_chords_occ chords) as Hocc.
  pose proof (count_chords_sum chords) as Hsum.
  assert (Hlen : List.length (valid_chords chords) <= total_chords st).
  { rewrite Ht. unfold valid_chords.
    rewrite <- (length_map (fun c : chord time => strip (snd c)) chords).
    apply filter_length_le. }
  rewrite Hu. clear Hu Ht Hst.
  destruct (count_chords chords) as [| x rest] eqn:Ed.
  - apply count_chords_nil_iff in Ed. contradiction.
  - destruct Hm as [Hl Hc]. rewrite Hl, Hc.
    destruct (max_by_count_spec rest x) as [Hmax (pre & post & E & _)].
    set (m := max_by_count x rest) in *.
    assert (Hin : In m (x :: rest))
      by (rewrite E; apply in_or_app; right; now left).
    assert (Hk : In (fst m) (valid_chords chords)).
    { apply In_first_seen. rewrite <- Hkeys. unfold keys.
      now apply in_map. }
    assert (Hcount : snd m
                     = count_occ string_dec (valid_chords chords) (fst m)).
    { apply Hocc. now rewrite <- surjective_pairing. }
    exists (fst m). split; [reflexivity |]. split; [exact Hk |].
    split; [exact Hcount |].
    pose proof (count_occ_le_length (valid_chords chords) (fst m)).
    pose proof (proj1 (count_occ_In string_dec _ _) Hk).
    split; [lia |]. split; [| lia].
    rewrite <- Hsum. unfold values.
    rewrite <- (length_map snd (x :: rest)).
    apply list_sum_le_max. intros v Hvin.
    apply in_map_iff in Hvin as [y [<- Hy]]. now apply Hmax.
Qed.

Lemma most_common_count_bounds_witness :
  let chords : list (chord nat) :=
    [(0, 1, "C"); (1, 2, "G"); (2, 3, ""); (3, 4, "G")] in
  exists st label,
    _analyze_chord_statistics chords = Some st /\
    most_common_chord st = Some label /\
    1 <= most_common_count st <= 3.
Proof.
  intros chords.
  assert (Hst : _analyze_chord_statistics chords
                = Some {| total_chords := 4; unique_chords := 2;
                          most_common_chord := Some "G";
                          most_common_count := 2;
                          chord_distribution := [("C", 1); ("G", 2)] |})
    by reflexivity.
  assert (Hv : valid_chords chords <> []) by discriminate.
  destruct (most_common_count_bounds nat chords _ Hst Hv)
    as (label & Hl & _ & _ & Hb & _).
  eexists. exists label. split; [exact Hst |]. split; [exact Hl | exact Hb].
Defined.

(** *** The distribution *)

Lemma filter_all {A : Type} (f : A -> bool) (l : list A) :
  (forall a, In a l -> f a = true) -> filter f l = l.
Proof.
  induction l as [| a l IH]; simpl; intros H; [reflexivity |].
  rewrite (H a (or_introl eq_refl)). f_equal.
  apply IH. intros b Hb. apply H. now right.
Qed.

Lemma count_chords_entry {time : Type} (chords : list (chord time))
    (k : string) (c : nat) :
  In (k, c) (count_chords chords) ->
  In k (valid_chords chords) /\
  c = count_occ string_dec (valid_chords chords) k /\ 1 <= c.
Proof.
  intros Hin.
  assert (Hk : In k (valid_chords chords)).
  { apply In_first_seen. rewrite <- count_chords_keys. unfold keys.
    change k with (fst (k, c)). now apply in_map. }
  pose proof (count_chords_occ chords k c Hin) as Hc.
  pose proof (proj1 (count_occ_In string_dec _ _) Hk).
  repeat split; [exact Hk | exact Hc | lia].
Qed.

(** X13.  The distribution has one entry per label; every key is a valid
    label free of surrounding white space and every count is at least 1.
    Hence the filter of [create_chord_distribution_plot] keeps every entry,
    and the plot is empty only when the distribution is. *)
Theorem distribution_entries_are_valid :
  forall (time : Type) (chords : list (chord time)) (st : ChordStatistics),
    _analyze_chord_statistics chords = Some st ->
    let d := chord_distribution st in
    NoDup (keys d) /\
    (forall k c, In (k, c) d ->
                 is_valid_label k = true /\ strip k = k /\ 1 <= c) /\
    valid_chord_dist d = d /\
    distribution_bars (Some st)
    = match d with [] => None | _ => Some (keys d, values d) end.
Proof.
  intros time chords st Hst.
  destruct (statistics_fields chords st Hst) as (_ & _ & _ & Hd & _).
  cbv zeta.
  assert (Hentries : forall k c, In (k, c) (chord_distribution st) ->
                       is_valid_label k = true /\ strip k = k /\ 1 <= c).
  { rewrite Hd. intros k c Hin.
    apply count_chords_entry in Hin as (Hk & _ & Hc).
    apply valid_chords_In in Hk as [Hv Hs]. now repeat split. }
  assert (Hfilter : valid_chord_dist (chord_distribution st)
                    = chord_distribution st).
  { unfold valid_chord_dist. apply filter_all. intros [k c] Hin.
    destruct (Hentries k c Hin) as (Hv & _ & Hc). simpl fst. simpl snd.
    unfold is_valid_label in Hv. rewrite Hv. simpl.
    apply Nat.ltb_lt. lia. }
  split; [| split; [exact Hentries | split; [exact Hfilter |]]].
  - rewrite Hd, count_chords_tally. apply NoDup_keys_tally. constructor.
  - unfold distribution_bars. revert Hfilter.
    destruct (chord_distribution st) as [| x rest]; [reflexivity |].
    now intros ->.
Qed.

Lemma distribution_entries_are_valid_witness :
  let chords : list (chord nat) :=
    [(0, 1, " Am "); (1, 2, "nan"); (2, 3, "Am"); (3, 4, "F")] in
  exists st,
    _analyze_chord_statistics chords = Some st /\
    valid_chord_dist (chord_distribution st) = chord_distribution st /\
    distribution_bars (Some st) = Some (["Am"; "F"], [2; 1]).
Proof.
  intros chords.
  assert (Hst : _analyze_chord_statistics chords
                = Some {| total_chords := 4; unique_chords := 2;
                          most_common_chord := Some "Am";
                          most_common_count := 2;
                          chord_distribution := [("Am", 2); ("F", 1)] |})
    by reflexivity.
  eexists. split; [exact Hst |].
  destruct (distribution_entries_are_valid nat chords _ Hst)
    as (_ & _ & Hf & Hb).
  split; [exact Hf | exact Hb].
Defined.

(** X14.  The statistics depend on the stripped labels only: two sequences
    with the same labels up to surrounding white space have the same
    statistics, whatever their time stamps. *)
Theorem statistics_depend_on_labels_only :
  forall (time1 time2 : Type) (chords1 : list (chord time1))
         (chords2 : list (chord time2)),
    map (fun c => strip (snd c)) chords1
    = map (fun c => strip (snd c)) chords2 ->
    _analyze_chord_statistics chords1 = _analyze_chord_statistics chords2.
Proof.
  intros time1 time2 chords1 chords2 H.
  assert (Hv : valid_chords chords1 = valid_chords chords2)
    by (unfold valid_chords; now rewrite H).
  assert (Hc : count_chords chords1 = count_chords chords2)
    by (now rewrite !count_chords_tally, Hv).
  assert (Hl : List.length chords1 = List.length chords2).
  { pose proof (f_equal (@List.length string) H) as HL.
    now rewrite !length_map in HL. }
  destruct chords1 as [| c1 r1], chords2 as [| c2 r2]; try discriminate.
  - reflexivity.
  - unfold _analyze_chord_statistics. now rewrite Hc, Hl.
Qed.

Lemma statistics_depend_on_labels_only_witness :
  _analyze_chord_statistics [(0, 1, "C "); (1, 2, " G")]
  = _analyze_chord_statistics [(5%Z, 7%Z, "C"); (7%Z, 9%Z, "G ")].
Proof.
  apply (statistics_depend_on_labels_only nat Z
           [(0, 1, "C "); (1, 2, " G")] [(5%Z, 7%Z, "C"); (7%Z, 9%Z, "G ")]).
  reflexivity.
Defined.

(** X15.  The count of a label in the distribution of a concatenation is the
    sum of its counts in the two parts (a label that is no key counting
    0). *)
Theorem distribution_counts_add :
  forall (time : Type) (chords1 chords2 : list (chord time)) (k : string),
    get_default (count_chords (chords1 ++ chords2)) k 0
    = get_default (count_chords chords1) k 0
      + get_default (count_chords chords2) k 0.
Proof.
  intros time chords1 chords2 k.
  now rewrite !count_chords_get, valid_chords_app, count_occ_app.
Qed.

(** *** The analysis result *)



(** *** The copies of the valid-label filter *)

(** X21.  The home page, the timeline table, the timeline plot and the
    analysis page each filter the segments on their own, and they agree: the
    rows of the table and the markers of the plot are the valid segments of
    the home page, in order, with the stripped labels of the analysis page;
    and their number is the sum of the counts of the distribution. *)
Theorem valid_filters_agree :
  forall (time : Type) (chords : list (chord time)),
    let valid := App.valid_segments chords in
    valid_chords chords = map (fun c => strip (snd c)) valid /\
    Timeline.valid_data chords
    = map (fun c => (fst (fst c), snd (fst c), strip (snd c))) valid /\
    Timeline.timeline_points chords
    = (map (fun c => fst (fst c)) valid, valid_chords chords) /\
    list_sum (values (count_chords chords)) = List.length valid.
Proof.
  intros time chords. cbv zeta.
  assert (Hv : valid_chords chords
               = map (fun c => strip (snd c)) (App.valid_segments chords)).
  { unfold valid_chords, App.valid_segments.
    induction chords as [| [[s e] label] chords IH]; simpl; [reflexivity |].
    destruct (is_valid_label (strip label)); simpl;
      [f_equal |]; exact IH. }
  split; [exact Hv |]. split; [| split].
  - clear Hv. unfold App.valid_segments.
    induction chords as [| [[s e] label] chords IH]; simpl; [reflexivity |].
    destruct (is_valid_label (strip label)); simpl;
      [f_equal |]; exact IH.
  - clear Hv. unfold valid_chords, App.valid_segments.
    induction chords as [| [[s e] label] chords IH]; simpl; [reflexivity |].
    destruct (Timeline.timeline_points chords) as [ts cs].
    injection IH as -> ->.
    destruct (is_valid_label (strip label)); reflexivity.
  - rewrite count_chords_sum, Hv. apply length_map.
Qed.

End StatisticsExtras.

(** * Properties of the musical features *)

Module FeatureExtras.
Import PyStr PyDict ChordAnalyzer AdvancedAnalysis Features FeatureNotions.

(** *** Diversity *)

Lemma Zpos_of_nat (n : nat) : n <> 0 -> Z.pos (Pos.of_nat n) = Z.of_nat n.
Proof.
  intros Hn. rewrite <- positive_nat_Z. now rewrite Nat2Pos.id.
Qed.

Lemma distinct_count_le (v : list string) :
  distinct_count v <= List.length v.
Proof.
  unfold distinct_count.
  apply (NoDup_incl_length (l := nodup string_dec v) (l' := v));
    [apply NoDup_nodup |].
  intros k Hk. now apply nodup_In in Hk.
Qed.

Lemma distinct_count_eq_iff (v : list string) :
  distinct_count v = List.length v <-> NoDup v.
Proof.
  unfold distinct_count. split.
  - induction v as [| x v IH]; [constructor |]. simpl.
    pose proof (distinct_count_le v) as Hle. unfold distinct_count in Hle.
    destruct (in_dec string_dec x v) as [Hin | Hnotin]; simpl; intros H.
    + lia.
    + constructor; [exact Hnotin |]. apply IH. lia.
  - intros H. now rewrite nodup_fixed_point.
Qed.

Lemma distinct_count_pos (v : list string) :
  v <> [] -> 1 <= distinct_count v.
Proof.
  destruct v as [| x v]; [congruence |]. intros _. unfold distinct_count.
  assert (H : In x (nodup string_dec (x :: v)))
    by (apply nodup_In; now left).
  destruct (nodup string_dec (x :: v)); [contradiction | simpl; lia].
Qed.

(** X17.  For a non-empty list of valid labels the diversity ratio
    [len(set(v)) / len(v)] is positive and at most 1, and it is 1 exactly
    when the labels are pairwise distinct. *)
Theorem unique_ratio_range :
  forall v : list string,
    v <> [] ->
    (0 < unique_ratio v)%Q /\ (unique_ratio v <= 1)%Q /\
    ((unique_ratio v == 1)%Q <-> NoDup v).
Proof.
  intros v Hne.
  pose proof (distinct_count_pos v Hne) as Hpos.
  pose proof (distinct_count_le v) as Hle.
  pose proof (distinct_count_eq_iff v) as Heq.
  assert (Hlen : List.length v <> 0) by (destruct v; simpl; congruence).
  unfold unique_ratio. destruct v as [| x r]; [congruence |].
  unfold Qlt, Qle, Qeq. cbn [Qnum Qden].
  rewrite (Zpos_of_nat _ Hlen). repeat split.
  - lia.
  - lia.
  - intros H. apply Heq. lia.
  - intros H. apply Heq in H. lia.
Qed.

Lemma unique_ratio_range_witness :
  (0 < unique_ratio ["C"; "G"; "C"])%Q /\
  (unique_ratio ["C"; "G"; "C"] <= 1)%Q.
Proof.
  assert (Hne : ["C"; "G"; "C"] <> []) by discriminate.
  destruct (unique_ratio_range ["C"; "G"; "C"] Hne) as (H0 & H1 & _).
  split; [exact H0 | exact H1].
Defined.

(** *** Chord changes *)

Lemma list_sum_ones {A : Type} (l : list A) :
  list_sum (map (fun _ => 1) l) = List.length l.
Proof. induction l as [| a l IH]; simpl; [reflexivity | now rewrite IH]. Qed.

Lemma filter_map_length {A B : Type} (f : B -> bool) (h : A -> B)
    (l : list A) :
  List.length (filter f (map h l))
  = List.length (filter (fun a => f (h a)) l).
Proof.
  induction l as [| a l IH]; simpl; [reflexivity |].
  destruct (f (h a)); simpl; now rewrite IH.
Qed.

(** The index-based count of the page is the count of adjacent pairs of
    different labels. *)
Lemma changes_adjacent (v : list string) : changes v = adjacent_changes v.
Proof.
  induction v as [| a r IH]; [reflexivity |].
  destruct r as [| b r]; [reflexivity |].
  change (adjacent_changes (a :: b :: r))
    with ((if String.eqb b a then 0 else 1) + adjacent_changes (b :: r)).
  rewrite <- IH. unfold changes. rewrite !list_sum_ones.
  replace (List.length (a :: b :: r) - 1) with (S (List.length r))
    by (simpl; lia).
  replace (List.length (b :: r) - 1) with (List.length r) by (simpl; lia).
  change (seq 1 (S (List.length r))) with (1 :: seq 2 (List.length r)).
  rewrite <- (seq_shift (List.length r) 1).
  set (f := fun i => negb (String.eqb (nth i (a :: b :: r) "")
                             (nth (i - 1) (a :: b :: r) ""))).
  set (g := fun i => negb (String.eqb (nth i (b :: r) "")
                             (nth (i - 1) (b :: r) ""))).
  set (l := seq 1 (List.length r)).
  assert (Hrest : List.length (filter f (map S l))
                  = List.length (filter g l)).
  { rewrite filter_map_length. f_equal. apply filter_ext_in.
    intros i Hi. apply in_seq in Hi. destruct i as [| i]; [lia |].
    unfold f, g. cbn [nth Nat.sub]. now rewrite Nat.sub_0_r. }
  change (filter f (1 :: map S l))
    with (if f 1 then 1 :: filter f (map S l) else filter f (map S l)).
  assert (Hf1 : f 1 = negb (String.eqb b a)) by reflexivity.
  rewrite Hf1.
  destruct (String.eqb b a); cbn [negb List.length]; rewrite Hrest;
    reflexivity.
Qed.

Lemma adjacent_changes_le (v : list string) :
  adjacent_changes v <= List.length v - 1.
Proof.
  induction v as [| a r IH]; [simpl; lia |].
  destruct r as [| b r]; [simpl; lia |].
  change (adjacent_changes (a :: b :: r))
    with ((if String.eqb b a then 0 else 1) + adjacent_changes (b :: r)).
  simpl List.length in *. destruct (String.eqb b a); lia.
Qed.

Lemma adjacent_changes_zero_iff (v : list string) :
  adjacent_changes v = 0 <-> (forall x y, In x v -> In y v -> x = y).
Proof.
  induction v as [| a r IH].
  - split; [intros _ x y [] | reflexivity].
  - destruct r as [| b r].
    + split; [| reflexivity].
      intros _ x y [<- | []] [<- | []]. reflexivity.
    + change (adjacent_changes (a :: b :: r))
        with ((if String.eqb b a then 0 else 1)
              + adjacent_changes (b :: r)).
      destruct (String.eqb_spec b a) as [-> | Hne].
      * rewrite Nat.add_0_l, IH. split.
        -- intros H x y Hx Hy.
           assert (Hx' : In x (a :: r))
             by (destruct Hx as [<- | Hx]; [now left | exact Hx]).
           assert (Hy' : In y (a :: r))
             by (destruct Hy as [<- | Hy]; [now left | exact Hy]).
           now apply H.
        -- intros H x y Hx Hy. apply H; now right.
      * split; [intros H; simpl in H; lia |].
        intros H. exfalso. apply Hne. apply H; [right |]; now left.
Qed.

(** X18.  At most [len(v) - 1] positions change chord, so the change ratio
    lies between 0 and 1; and no position changes chord exactly when all
    the labels are the same. *)
Theorem change_ratio_range :
  forall v : list string,
    changes v <= List.length v - 1 /\
    (0 <= change_ratio v)%Q /\ (change_ratio v <= 1)%Q /\
    (changes v = 0 <-> (forall x y, In x v -> In y v -> x = y)).
Proof.
  intros v. rewrite changes_adjacent.
  pose proof (adjacent_changes_le v) as Hle.
  split; [exact Hle |]. unfold change_ratio. rewrite changes_adjacent.
  destruct (Nat.ltb_spec 1 (List.length v)) as [Hlt | Hge].
  - unfold Qle. cbn [Qnum Qden].
    rewrite (Zpos_of_nat (List.length v - 1)) by lia.
    repeat split; [lia | lia | apply adjacent_changes_zero_iff
                  | apply adjacent_changes_zero_iff].
  - repeat split; [discriminate | discriminate
                  | apply adjacent_changes_zero_iff
                  | apply adjacent_changes_zero_iff].
Qed.

(** *** The longest streak *)

Lemma repeat_snoc (x : string) (n : nat) :
  repeat x (S n) = repeat x n ++ [x].
Proof. simpl. apply repeat_cons. Qed.

Lemma has_run_length (v : list string) (x : string) (m : nat) :
  has_run v x m -> m <= List.length v.
Proof.
  intros (pre & post & ->). rewrite !length_app, repeat_length. lia.
Qed.

Lemma has_run_snoc (p : list string) (c x : string) (m : nat) :
  has_run p x m -> has_run (p ++ [c]) x m.
Proof.
  intros (pre & post & ->). exists pre, (post ++ [c]).
  now rewrite <- !app_assoc.
Qed.

(** A run of the extended list lies in the old list or ends at the new
    label. *)
Lemma has_run_snoc_inv (p : list string) (c x : string) (m : nat) :
  has_run (p ++ [c]) x m ->
  has_run p x m \/
  exists m' pre, m = S m' /\ x = c /\ p = pre ++ repeat c m'.
Proof.
  intros (pre & post & E).
  assert (Hpost : post = [] \/ exists post' y, post = post' ++ [y]).
  { induction post as [| y post' _] using rev_ind; [now left | right].
    now exists post', y. }
  destruct Hpost as [-> | (post' & y & ->)].
  - rewrite app_nil_r in E. destruct m as [| m'].
    + left. exists p, []. simpl. now rewrite app_nil_r.
    + right. rewrite repeat_snoc, app_assoc in E.
      apply app_inj_tail in E as [Ep Ec]. subst x.
      now exists m', pre.
  - left. rewrite !app_assoc in E. apply app_inj_tail in E as [Ep _].
    exists pre, post'. now rewrite app_assoc.
Qed.

(** A run at the end of a list is no longer than the run that ends it. *)
Lemma suffix_run_bound (x : string) (q : list string) (n : nat) :
  (forall q' y, q = q' ++ [y] -> y <> x) ->
  forall (pre : list string) (m : nat),
    q ++ repeat x n = pre ++ repeat x m -> m <= n.
Proof.
  intros Hq. induction n as [| n IH]; intros pre m E.
  - destruct m as [| m]; [lia |]. exfalso.
    rewrite repeat_snoc, app_assoc in E.
    change (repeat x 0) with (@nil string) in E. rewrite app_nil_r in E.
    now apply (Hq _ _ E).
  - destruct m as [| m]; [lia |].
    rewrite !repeat_snoc, !app_assoc in E.
    apply app_inj_tail in E as [E _]. apply IH in E. lia.
Qed.

Lemma streak_inv_init (first : string) :
  streak_inv [first] (mkStreak first 1 1).
Proof.
  unfold streak_inv. cbn [current_chord max_streak current_streak].
  repeat split; try lia.
  - exists []. split; [reflexivity |]. intros q' y E. now destruct q'.
  - exists first, [], []. reflexivity.
  - intros x m H. apply has_run_length in H. simpl in H. lia.
Qed.

Lemma streak_inv_step (p : list string) (st : streak_state) (c : string) :
  streak_inv p st -> streak_inv (p ++ [c]) (streak_step st c).
Proof.
  destruct st as [cur mx cs]. unfold streak_inv, streak_step.
  cbn [current_chord max_streak current_streak].
  intros (Hcs & Hmx & (q & Hp & Hq) & (xm & Hrun) & Hbound).
  destruct (String.eqb_spec c cur) as [-> | Hne];
    cbn [current_chord max_streak current_streak].
  - split; [lia |]. split; [exact Hmx |]. split; [| split].
    + exists q. split; [| exact Hq].
      rewrite Hp, Nat.add_1_r, repeat_snoc. now rewrite app_assoc.
    + exists xm. now apply has_run_snoc.
    + intros x m H. apply has_run_snoc_inv in H
        as [H | (m' & pre & -> & -> & E)].
      * apply Hbound in H. lia.
      * rewrite Hp in E. apply (suffix_run_bound cur q cs Hq) in E. lia.
  - assert (Hlast : forall q' y, p = q' ++ [y] -> y <> c).
    { intros q' y E. rewrite Hp in E.
      destruct cs as [| cs']; [lia |].
      rewrite repeat_snoc, app_assoc in E.
      apply app_inj_tail in E as [_ <-]. congruence. }
    split; [lia |]. split; [destruct (mx <? cs); lia |].
    split; [| split].
    + exists p. split; [reflexivity | exact Hlast].
    + destruct (Nat.ltb_spec mx cs) as [Hlt | Hge].
      * exists cur, q, [c]. rewrite Hp. now rewrite <- app_assoc.
      * exists xm. now apply has_run_snoc.
    + intros x m H. apply has_run_snoc_inv in H
        as [H | (m' & pre & -> & -> & E)].
      * apply Hbound in H. destruct (Nat.ltb_spec mx cs); lia.
      * destruct m' as [| m'']; [destruct (mx <? cs); lia |].
        exfalso. rewrite repeat_snoc, app_assoc in E.
        now apply (Hlast _ _ E).
Qed.

Lemma streak_inv_fold (rest : list string) :
  forall (p : list string) (st : streak_state),
    streak_inv p st ->
    streak_inv (p ++ rest) (fold_left streak_step rest st).
Proof.
  induction rest as [| c rest IH]; intros p st H; simpl.
  - now rewrite app_nil_r.
  - replace (p ++ c :: rest) with ((p ++ [c]) ++ rest)
      by (now rewrite <- app_assoc).
    apply IH. now apply streak_inv_step.
Qed.

(** X19.  The streak shown by the page is the length of the longest run of
    equal consecutive labels: the list holds that many consecutive
    occurrences of some label, it holds no longer run of any label, and the
    value lies between 1 and the number of labels.  Nothing is computed for
    the empty list only. *)
Theorem longest_streak_is_longest_run :
  forall v : list string,
    (longest_streak v = None <-> v = []) /\
    forall n : nat,
      longest_streak v = Some n ->
      1 <= n <= List.length v /\
      (exists x, has_run v x n) /\
      (forall x m, has_run v x m -> m <= n).
Proof.
  intros v. split.
  - destruct v; simpl; split; congruence.
  - intros n H. destruct v as [| first rest]; [discriminate |].
    unfold longest_streak in H.
    pose proof (streak_inv_fold rest [first] _ (streak_inv_init first))
      as Hinv.
    change ([first] ++ rest) with (first :: rest) in Hinv.
    destruct (fold_left streak_step rest (mkStreak first 1 1))
      as [cur mx cs].
    unfold streak_inv in Hinv.
    cbn [current_chord max_streak current_streak] in *.
    destruct Hinv as (Hcs & Hmx & (q & Hp & _) & (xm & Hrun) & Hbound).
    injection H as <-.
    assert (Hex : exists x,
               has_run (first :: rest) x (if mx <? cs then cs else mx)).
    { destruct (mx <? cs).
      - exists cur, q, []. now rewrite app_nil_r.
      - now exists xm. }
    split; [| split; [exact Hex |]].
    + destruct Hex as [x Hx]. apply has_run_length in Hx.
      split; [destruct (mx <? cs); lia | exact Hx].
    + intros x m Hm. apply Hbound in Hm.
      destruct (Nat.ltb_spec mx cs); lia.
Qed.

Lemma longest_streak_is_longest_run_witness :
  1 <= 3 <= List.length ["A"; "A"; "D"; "D"; "D"; "A"] /\
  (exists x, has_run ["A"; "A"; "D"; "D"; "D"; "A"] x 3) /\
  (forall x m, has_run ["A"; "A"; "D"; "D"; "D"; "A"] x m -> m <= 3).
Proof.
  apply (proj2 (longest_streak_is_longest_run
                  ["A"; "A"; "D"; "D"; "D"; "A"]) 3).
  reflexivity.
Defined.

(** *** Major and minor *)

(** X20.  Every valid label is counted exactly once, as minor when it
    contains the letter [m], as the sentinel when it is ["N"], and as major
    otherwise.  In particular a label with the quality [maj] is counted as
    minor. *)
Theorem major_minor_partition :
  forall v : list string,
    List.length (major_chords v) + List.length (minor_chords v)
    + count_occ string_dec v "N" = List.length v /\
    (forall c, In c (major_chords v) -> ~ In c (minor_chords v)) /\
    (forall root, In (root ++ ":maj")%string v ->
                  In (root ++ ":maj")%string (minor_chords v) /\
                  ~ In (root ++ ":maj")%string (major_chords v)).
Proof.
  intros v. unfold major_chords, minor_chords. split; [| split].
  - induction v as [| c v IH]; [reflexivity |].
    cbn [filter count_occ List.length].
    destruct (contains "m" c) eqn:Em; cbn [negb andb List.length].
    + destruct (string_dec c "N") as [-> | _]; [discriminate | lia].
    + destruct (String.eqb_spec c "N") as [-> | Hne];
        cbn [negb List.length].
      * destruct (string_dec "N" "N"); [lia | congruence].
      * destruct (string_dec c "N"); [congruence | lia].
  - intros c Hmaj Hmin. apply filter_In in Hmaj as [_ Hmaj].
    apply filter_In in Hmin as [_ Hmin]. rewrite Hmin in Hmaj. discriminate.
  - intros root Hin.
    assert (Hm : contains "m" (root ++ ":maj") = true)
      by (rewrite PyStrProofs.contains_append; apply orb_true_r).
    split.
    + apply filter_In. now split.
    + intros H. apply filter_In in H as [_ H]. rewrite Hm in H.
      discriminate.
Qed.

End FeatureExtras.
